(** * get_birthday.py: the fetch, retry and checkpoint orchestrator

    A shallow embedding of [src/get_birthday.py] and the properties its
    specification states about it.

    Conventions of the embedding.
    - A Python value that the code passes around untyped (the result of
      [get_age_with_retry], a cell of a date column) is a [pyval]: the
      float NaN, an integer, or a string.  Ages are whole numbers, so the
      float64 cells pandas keeps for them are read as integers.
    - What the browser shows is outside the program.  It is an explicit
      argument: an [env] gives, for every cycle, row and attempt, what the
      try observes ([try_obs]), whether a worker's session can be created,
      and when a chunk completes.
    - Effects the claims speak about (page loads, waits, extractions, saves)
      are recorded in explicit traces next to the returned value.
    - An exception is a value [Raise e] of [res]; [try ... except Exception:
      pass] turns it back into normal control flow. *)

From Stdlib Require Import ZArith String Ascii Lia Bool.
From stdpp Require Import base list strings sorting.

Local Open Scope Z_scope.

(** ** Python values *)

Inductive pyval : Type :=
  | PNaN
  | PInt (z : Z)
  | PStr (s : string).

#[global] Instance pyval_eq_dec : EqDecision pyval.
Proof. solve_decision. Defined.

(** [a == b] on the values above: NaN equals nothing, not even itself, and
    a number never equals a string. *)
Definition py_eq (a b : pyval) : bool :=
  match a, b with
  | PInt x, PInt y => Z.eqb x y
  | PStr s, PStr t => String.eqb s t
  | _, _ => false
  end.

(** [pd.isna] on a scalar. *)
Definition isna (v : pyval) : bool :=
  match v with PNaN => true | _ => false end.

Inductive exn : Type :=
  | ValueError
  | TypeError
  | IndexError
  | OverflowError
  | WebDriverException.

Inductive res (A : Type) : Type :=
  | Ok (a : A)
  | Raise (e : exn).
Arguments Ok {A} a.
Arguments Raise {A} e.

(** [range(a, b)]. *)
Definition py_range (a b : Z) : list Z :=
  (λ i : nat, a + Z.of_nat i) <$> seq 0 (Z.to_nat (b - a)).

(** ** The pattern [Age:\s*(\d+)], flags DOTALL and IGNORECASE

    Page text is a string of code points below 256.  There [\d] is the ten
    ASCII digits and [\s] is the ASCII white space together with the
    separators 28 to 31, NEL (133) and the no-break space (160).  The
    pattern has no dot, so DOTALL changes nothing. *)

Definition is_digit (c : ascii) : bool :=
  let n := nat_of_ascii c in (48 <=? n)%nat && (n <=? 57)%nat.

Definition is_space (c : ascii) : bool :=
  let n := nat_of_ascii c in
  ((9 <=? n)%nat && (n <=? 13)%nat) || ((28 <=? n)%nat && (n <=? 32)%nat)
  || (n =? 133)%nat || (n =? 160)%nat.

(** A letter of the pattern under IGNORECASE. *)
Definition ci (lo up c : ascii) : bool := Ascii.eqb c lo || Ascii.eqb c up.

Fixpoint skip_spaces (s : string) : string :=
  match s with
  | String c r => if is_space c then skip_spaces r else s
  | EmptyString => EmptyString
  end.

Fixpoint take_digits (s : string) : string :=
  match s with
  | String c r => if is_digit c then String c (take_digits r) else EmptyString
  | EmptyString => EmptyString
  end.

(** A match that starts at the head of [s]; the result is group 1.  [\s*]
    and [\d+] are greedy and share no character, so there is one way to
    match. *)
Definition match_age_at (s : string) : option string :=
  match s with
  | String a (String g (String e (String k r))) =>
      if ci "a" "A" a && ci "g" "G" g && ci "e" "E" e && Ascii.eqb k ":" then
        match take_digits (skip_spaces r) with
        | EmptyString => None
        | ds => Some ds
        end
      else None
  | _ => None
  end.

(** [pat_age_compiled.search(text)]: the leftmost match, [m.group(1)]. *)
Fixpoint pat_age_compiled (text : string) : option string :=
  match match_age_at text with
  | Some ds => Some ds
  | None =>
      match text with
      | String _ r => pat_age_compiled r
      | EmptyString => None
      end
  end.

Definition digit_val (c : ascii) : Z := Z.of_nat (nat_of_ascii c) - 48.

Fixpoint int_acc (acc : Z) (s : string) : option Z :=
  match s with
  | EmptyString => Some acc
  | String c r => if is_digit c then int_acc (10 * acc + digit_val c) r else None
  end.

(** The interpreter's limit on the length of a decimal string that [int]
    converts ([sys.get_int_max_str_digits()], 4300 unless changed). *)
Definition int_max_str_digits : nat := 4300.

(** [int] as the cast of [extract_first]: a non-empty run of at most
    [int_max_str_digits] digits is its decimal value; a longer run raises
    ValueError, leading zeros counted, and so does anything else (here
    [None]).  Signs, blanks and underscores, which [int] also reads, never
    reach it from [\d+]. *)
Definition py_int (s : string) : option pyval :=
  match s with
  | EmptyString => None
  | _ =>
      if (String.length s <=? int_max_str_digits)%nat
      then PInt <$> int_acc 0 s
      else None
  end.

(** [extract_first(pat, text, cast)]: [cast] raising gives NaN. *)
Definition extract_first (pat : string → option string) (text : string)
    (cast : option (string → option pyval)) : pyval :=
  match pat text with
  | None => PNaN
  | Some v =>
      match cast with
      | Some f => match f v with Some r => r | None => PNaN end
      | None => PStr v
      end
  end.

(** ** get_age_with_retry *)

Definition url : Type := string * Z.

(** What one try meets: [driver.get] raises; the toast probe raises
    something other than its own timeout; the toast is there; reading
    [page_source] raises; or the page is read. *)
Inductive try_obs : Type :=
  | GetFails
  | ToastFails
  | Toast
  | SourceFails
  | Source (html : string).

Inductive event : Type :=
  | EvGet (u : url)
  | EvToastCheck
  | EvSleep (secs : Z)
  | EvSettle
  | EvExtract (html : string).

#[global] Instance event_eq_dec : EqDecision event.
Proof. solve_decision. Defined.

(** How the body of the [try] ends. *)
Inductive ctl : Type :=
  | Return (v : pyval)
  | Fallthrough
  | Raised (e : exn).

Definition DELETED : pyval := PStr "DELETED".

(** [not pd.isna(age) and 3 <= age <= 200]; ordering a string against a
    number raises. *)
Definition age_ok (age : pyval) : res bool :=
  match age with
  | PNaN => Ok false
  | PInt z => Ok ((3 <=? z) && (z <=? 200))
  | PStr _ => Raise TypeError
  end.

Definition try_body (u : url) (o : try_obs) : ctl * list event :=
  match o with
  | GetFails => (Raised WebDriverException, [EvGet u])
  | ToastFails => (Raised WebDriverException, [EvGet u; EvToastCheck])
  | Toast => (Return DELETED, [EvGet u; EvToastCheck; EvSleep 5])
  | SourceFails => (Raised WebDriverException, [EvGet u; EvToastCheck; EvSettle])
  | Source html =>
      let age := extract_first pat_age_compiled html (Some py_int) in
      (match age_ok age with
       | Ok true => Return age
       | Ok false => Fallthrough
       | Raise e => Raised e
       end,
       [EvGet u; EvToastCheck; EvSettle; EvExtract html])
  end.

(** The [for] loop over the attempts; [except Exception: pass] sends a
    raising try to the next attempt like one that falls through. *)
Fixpoint retry_loop (driver : Z → try_obs) (u : url) (attempts : list Z)
    : pyval * list event :=
  match attempts with
  | [] => (PNaN, [])
  | a :: rest =>
      match try_body u (driver a) with
      | (Return v, tr) => (v, tr)
      | (_, tr) =>
          let '(v, tr') := retry_loop driver u rest in (v, tr ++ tr')
      end
  end.

Definition get_age_with_retry (driver : Z → try_obs) (u : url) (max_tries : Z)
    : pyval * list event :=
  retry_loop driver u (py_range 1 (max_tries + 1)).

(** ** The record store

    The frame is modelled as it stands after line 122, when today's column
    exists.  Of the three leading columns the code reads two: the one named
    [ath_id], and the one at position 2 ([val], the reference value).  The
    rest are the date columns; today's is reached by name, so a row keeps
    it apart from the others ([hist], in file order).  Row labels are the
    positions 0, 1, ..., as [read_csv] and [reset_index] leave them. *)

Record row : Type := Row {
  ath_id : option Z;
  val : option Z;
  hist : list pyval;
  today : pyval
}.

Abbreviation frame := (list row).

(** The number in a cell of a date column.  The columns are numeric: a
    string there is outside what the frame max is defined on, and the run
    never stores one.  The columns are float64, read here as integers:
    that is exact for whole numbers up to 2^53 in magnitude, and the
    properties that depend on comparing cells are stated for such frames
    ([exact_frame]). *)
Definition cell_num (c : pyval) : option Z :=
  match c with PInt z => Some z | _ => None end.

Definition max_opt (acc : option Z) (c : pyval) : option Z :=
  match cell_num c, acc with
  | Some z, Some m => Some (Z.max m z)
  | Some z, None => Some z
  | None, _ => acc
  end.

(** [ath_age.iloc[:, 3:].max(axis=1, skipna=True)] on one row: the largest
    number among all date columns, today's included; NaN when there is
    none. *)
Definition rowmax (r : row) : option Z :=
  foldl max_opt None (hist r ++ [today r]).

(** [Series.eq] on one position: a missing side compares unequal. *)
Definition series_eq (a b : option Z) : bool :=
  match a, b with
  | Some x, Some y => Z.eqb x y
  | _, _ => false
  end.

(** The mask of line 129 on one row. *)
Definition mask (r : row) : bool :=
  negb (series_eq (val r) (rowmax r)) && isna (today r).

(** [index[mask].tolist()] from label [k] on. *)
Fixpoint index_where (p : row → bool) (k : nat) (f : frame) : list nat :=
  match f with
  | [] => []
  | r :: f' =>
      if p r then k :: index_where p (S k) f' else index_where p (S k) f'
  end.

Definition backlog (f : frame) : list nat := index_where mask 0%nat f.

(** ** Chunks *)

(** [math.ceil(n / max(1, n_workers))].  The quotient of the two integers is
    the float nearest to the exact quotient.  It is 0.0 when the exact
    quotient is at most 2^-1075, half the smallest positive float, and the
    width is then 0.  Otherwise, for a list of up to 2^53 labels, the
    ceiling of the float is the ceiling of the exact quotient: an integer
    up to 2^53 is a float, and a quotient that is not an integer is farther
    than half a float step from the integer below it. *)
Definition chunk_size (n : nat) (n_workers : Z) : nat :=
  let w := Z.max 1 n_workers in
  if Z.of_nat n * 2 ^ 1075 <=? w then 0%nat
  else Z.to_nat ((Z.of_nat n + w - 1) / w).

(** [range(0, stop, step)] for a step that is not negative; a zero step
    raises. *)
Definition py_range_step (stop step : nat) : res (list nat) :=
  match step with
  | O => Raise ValueError
  | _ => Ok ((λ i, i * step)%nat <$> seq 0 ((stop + step - 1) / step)%nat)
  end.

(** [[idx_list[k:k + chunk_size] for k in range(0, len(idx_list), chunk_size)]] *)
Definition make_chunks (idx_list : list nat) (size : nat) : res (list (list nat)) :=
  match py_range_step (length idx_list) size with
  | Raise e => Raise e
  | Ok ks => Ok ((λ k, take size (drop k idx_list)) <$> ks)
  end.

(** ** Workers *)

Record env : Type := Env {
  page : Z → nat → Z → try_obs;
  session_ok : Z → nat → bool;
  finish : Z → nat → nat
}.

(** The loop of [_process_chunk_age] over its chunk, with the driver of
    cycle [c]. *)
Fixpoint chunk_loop (E : env) (c : Z) (federation : string)
    (ids_chunk : list nat) (ath_ids_series : list (option Z))
    : res (list (nat * pyval) * list event) :=
  match ids_chunk with
  | [] => Ok ([], [])
  | ridx :: rest =>
      match ath_ids_series !! ridx with
      | None => Raise IndexError
      | Some ath_id_val =>
          let '(age, tr) :=
            match ath_id_val with
            | None => (PNaN, [])
            | Some a => get_age_with_retry (page E c ridx) (federation, a) 3
            end in
          match chunk_loop E c federation rest ath_ids_series with
          | Ok (results, tr') => Ok ((ridx, age) :: results, tr ++ tr')
          | Raise e => Raise e
          end
      end
  end.

(** [_process_chunk_age] as chunk number [j] of cycle [c]: when neither way
    of starting the browser works the worker raises. *)
Definition _process_chunk_age (E : env) (c : Z) (j : nat) (federation : string)
    (ids_chunk : list nat) (ath_ids_series : list (option Z))
    : res (list (nat * pyval) * list event) :=
  if session_ok E c j then chunk_loop E c federation ids_chunk ath_ids_series
  else Raise WebDriverException.

(** A submitted chunk: when it completes, and with what. *)
Definition future : Type := nat * res (list (nat * pyval) * list event).

Definition earlier (a b : future) : Prop := (a.1 ≤ b.1)%nat.

#[global] Instance earlier_dec : RelDecision earlier.
Proof. intros a b. unfold earlier. apply _. Defined.

(** [as_completed]: the futures by completion time. *)
Definition as_completed (futures : list future) : list future :=
  merge_sort earlier futures.

(** [cycle_results.extend(fut.result())] over the completed futures; the
    first one that raised ends the loop with its exception. *)
Fixpoint collect (futures : list future) : res (list (nat * pyval) * list event) :=
  match futures with
  | [] => Ok ([], [])
  | (_, Raise e) :: _ => Raise e
  | (_, Ok (results, tr)) :: rest =>
      match collect rest with
      | Ok (results', tr') => Ok (results ++ results', tr ++ tr')
      | Raise e => Raise e
      end
  end.

(** The first worker count the pool cannot be created with: its call queue
    has [max_workers + 1] slots, counted by a semaphore whose value is a C
    int. *)
Definition max_pool_workers : Z := 2 ^ 31 - 1.

(** Lines 140 to 144.  [ProcessPoolExecutor(max_workers=n)] raises
    ValueError when [n <= 0], as the standard library documents, and
    OverflowError from [max_pool_workers] on.  A pool of an accepted size is
    taken to get the processes it asks the operating system for; what can
    fail in a worker is the start of its browser ([session_ok]). *)
Definition dispatch (E : env) (c : Z) (federation : string) (n_workers : Z)
    (chunks : list (list nat)) (ath_ids_series : list (option Z))
    : res (list (nat * pyval) * list event) :=
  if n_workers <=? 0 then Raise ValueError
  else if max_pool_workers <=? n_workers then Raise OverflowError
  else
    collect (as_completed
      (imap (λ j ch, (finish E c j,
                      _process_chunk_age E c j federation ch ath_ids_series))
            chunks)).

(** ** Merge and purge *)

Definition set_today (v : pyval) (r : row) : row :=
  {| ath_id := ath_id r; val := val r; hist := hist r; today := v |}.

(** One turn of the loop of lines 148 to 152.  [.loc[ridx, today_str] = age]
    rewrites the cell of an existing label; the labels of a cycle's results
    all exist (outside the frame pandas would add a row, which is not
    modelled: [alter] leaves the frame as it is). *)
Definition merge_one (acc : frame * list nat) (p : nat * pyval) : frame * list nat :=
  let '(ath_age, ids_to_remove) := acc in
  let '(ridx, age) := p in
  if py_eq age DELETED then (ath_age, ids_to_remove ++ [ridx])
  else (alter (set_today age) ridx ath_age, ids_to_remove).

Definition merge (f : frame) (cycle_results : list (nat * pyval)) : frame * list nat :=
  foldl merge_one (f, []) cycle_results.

(** [drop(index=ids)] from label [k] on, then [reset_index(drop=True)]: the
    rows whose label is not listed, in order, relabelled by position. *)
Fixpoint drop_index (ids : list nat) (k : nat) (f : frame) : frame :=
  match f with
  | [] => []
  | r :: f' =>
      if bool_decide (k ∈ ids) then drop_index ids (S k) f'
      else r :: drop_index ids (S k) f'
  end.

Definition purge (acc : frame * list nat) : frame :=
  match acc.2 with
  | [] => acc.1
  | ids_to_remove => drop_index ids_to_remove 0%nat acc.1
  end.

Definition merge_purge (f : frame) (cycle_results : list (nat * pyval)) : frame :=
  purge (merge f cycle_results).

(** ** The cycles *)

(** What a completed cycle did, and the frame it wrote to the CSV file. *)
Record report : Type := Report {
  r_cycle : Z;
  r_before : frame;
  r_backlog : list nat;
  r_chunks : list (list nat);
  r_results : list (nat * pyval);
  r_events : list event;
  r_saved : frame
}.

Inductive stop : Type :=
  | AllCaptured (cycle : Z)
  | BudgetSpent
  | Crashed (cycle : Z) (e : exn).

(** The work of one cycle on a backlog that is not empty: lines 137 to 144. *)
Definition scrape (E : env) (federation : string) (n_workers : Z) (c : Z)
    (f : frame) (idx_list : list nat)
    : res (list (list nat) * (list (nat * pyval) * list event)) :=
  match make_chunks idx_list (chunk_size (length idx_list) n_workers) with
  | Raise e => Raise e
  | Ok chunks =>
      match dispatch E c federation n_workers chunks (ath_id <$> f) with
      | Raise e => Raise e
      | Ok out => Ok (chunks, out)
      end
  end.

(** The loop of line 125 over the cycles still to run. *)
Fixpoint run_cycles (E : env) (federation : string) (n_workers : Z)
    (cycles : list Z) (f : frame) : list report * stop * frame :=
  match cycles with
  | [] => ([], BudgetSpent, f)
  | c :: rest =>
      match backlog f with
      | [] => ([], AllCaptured c, f)
      | idx_list =>
          match scrape E federation n_workers c f idx_list with
          | Raise e => ([], Crashed c e, f)
          | Ok (chunks, (cycle_results, tr)) =>
              let f' := merge_purge f cycle_results in
              let '(reps, s, final) := run_cycles E federation n_workers rest f' in
              (Report c f idx_list chunks cycle_results tr f' :: reps, s, final)
          end
      end
  end.

Definition run_scraping_cycle (E : env) (federation : string) (n_workers : Z)
    (f : frame) : list report * stop * frame :=
  run_cycles E federation n_workers (py_range 1 6) f.

(** ** Vocabulary of the specification *)

(** The value is an age the code accepts: an integer from 3 to 200. *)
Definition in_range (v : pyval) : bool :=
  match v with
  | PInt z => (3 <=? z) && (z <=? 200)
  | _ => false
  end.

(** The three outcomes of a fetch: Deleted, Unresolved, Found. *)
Definition outcome_ok (v : pyval) : Prop :=
  v = DELETED ∨ v = PNaN ∨ ∃ z, v = PInt z ∧ 3 ≤ z ≤ 200.

(** The extractor as [get_age_with_retry] calls it. *)
Definition extract_age (html : string) : pyval :=
  extract_first pat_age_compiled html (Some py_int).

(** A try that does not settle the fetch: something raised, or the page
    gave no age the code accepts. *)
Definition failed_try (o : try_obs) : bool :=
  match o with
  | Toast => false
  | Source html => negb (in_range (extract_age html))
  | GetFails | ToastFails | SourceFails => true
  end.

(** Following the spec's words: the most recent observed value that is not
    absent, the date columns being in chronological order and today's the
    latest. *)
Definition last_observed (r : row) : option Z :=
  last (omap cell_num (hist r ++ [today r])).

(** Following the spec's words: today's value is absent and the most recent
    observed value does not equal the expected one. *)
Definition spec_mask (r : row) : bool :=
  isna (today r) && negb (series_eq (val r) (last_observed r)).

Definition spec_backlog (f : frame) : list nat := index_where spec_mask 0%nat f.

(** Following the spec's words: the largest and the smallest chunk differ
    by at most one element. *)
Definition balanced (chunks : list (list nat)) : Prop :=
  ∀ a b, a ∈ chunks → b ∈ chunks → (length a ≤ length b + 1)%nat.

(** Following the spec's words: the chunks hold every index of the backlog
    once, and they are balanced. *)
Definition partition_claim (idx_list : list nat) (n_workers : Z) : Prop :=
  ∃ chunks,
    make_chunks idx_list (chunk_size (length idx_list) n_workers) = Ok chunks
    ∧ concat chunks = idx_list
    ∧ balanced chunks.

(** The store is keyed by entity: no two rows carry the same identifier
    (rows without one may repeat). *)
Definition keyed (f : frame) : Prop := NoDup (omap ath_id f).

(** The rows of [f] that carry the identifier [a]. *)
Definition holds (a : Z) (f : frame) : Prop := ∃ r, r ∈ f ∧ ath_id r = Some a.

(** Today's cell is the one the row had, or an accepted age. *)
Definition cell_kept_or_age (old new : pyval) : Prop :=
  new = old ∨ ∃ z, new = PInt z ∧ 3 ≤ z ≤ 200.

(** The trace events that load a page, and those that run the extractor. *)
Definition is_get (e : event) : bool :=
  match e with EvGet _ => true | _ => false end.

Definition is_extract (e : event) : bool :=
  match e with EvExtract _ => true | _ => false end.

Definition count_events (p : event → bool) (tr : list event) : nat :=
  length (filter (λ e, p e = true) tr).

(** [m] is the largest number among the cells. *)
Definition is_max (m : Z) (cells : list pyval) : Prop :=
  PInt m ∈ cells ∧ ∀ z, PInt z ∈ cells → z ≤ m.

(** The two halves of the merge loop, each on its own: the labels it marks
    for removal, and the cells it writes. *)
Definition is_deleted (p : nat * pyval) : bool := py_eq p.2 DELETED.

Definition deleted_ids (cycle_results : list (nat * pyval)) : list nat :=
  (filter (λ p, is_deleted p = true) cycle_results).*1.

Definition write_one (f : frame) (p : nat * pyval) : frame :=
  if is_deleted p then f else alter (set_today p.2) p.1 f.

Definition writes (f : frame) (cycle_results : list (nat * pyval)) : frame :=
  foldl write_one f cycle_results.

(** The reports of a run, read as a chain of completed cycles from the
    frame [f] to the frame [final]: each cycle starts from what the one
    before saved, finds a backlog that is not empty, scrapes it without an
    exception, and saves the merged and purged frame. *)
Fixpoint chain (E : env) (federation : string) (n_workers : Z)
    (f : frame) (reps : list report) (final : frame) : Prop :=
  match reps with
  | [] => final = f
  | rep :: reps' =>
      r_before rep = f
      ∧ r_backlog rep = backlog f
      ∧ backlog f ≠ []
      ∧ scrape E federation n_workers (r_cycle rep) f (backlog f)
        = Ok (r_chunks rep, (r_results rep, r_events rep))
      ∧ r_saved rep = merge_purge f (r_results rep)
      ∧ chain E federation n_workers (r_saved rep) reps' final
  end.

(** A result of a worker on the labels [ids]: it is for one of them, it is
    one of the three outcomes, and it is anything but NaN only for a row
    that has an identifier. *)
Definition result_ok (series : list (option Z)) (ids : list nat)
    (p : nat * pyval) : Prop :=
  p.1 ∈ ids ∧ outcome_ok p.2
  ∧ (p.2 ≠ PNaN → ∃ a, series !! p.1 = Some (Some a)).

(** A page load of a worker on the labels [ids] asks for the identifier of
    one of them. *)
Definition event_ok (federation : string) (series : list (option Z))
    (ids : list nat) (e : event) : Prop :=
  ∀ u, e = EvGet u →
    ∃ i a, i ∈ ids ∧ series !! i = Some (Some a) ∧ u = (federation, a).

(** The row [r'] is a row of [f] in which at most today's cell was filled
    in with an accepted age. *)
Definition row_from (f : frame) (r' : row) : Prop :=
  ∃ r, r ∈ f
       ∧ ath_id r' = ath_id r ∧ val r' = val r ∧ hist r' = hist r
       ∧ cell_kept_or_age (today r) (today r').

(** The end-to-end scenario of the specification: three rows, the first
    already matching its reference value, the second a deleted profile, the
    third a profile that shows the age 41. *)
Definition scenario_frame : frame :=
  [ Row (Some 10) (Some 34) [PInt 33; PInt 34] PNaN;
    Row (Some 11) (Some 20) [PInt 19] PNaN;
    Row (Some 12) (Some 41) [PNaN; PInt 40] PNaN ].

Definition scenario_env : env :=
  {| page := λ _ ridx _,
       match ridx with
       | 1%nat => Toast
       | _ => Source "<p>Age: 41</p>"
       end;
     session_ok := λ _ _, true;
     finish := λ _ j, j |}.

(** Words for describing what the pattern matched. *)
Fixpoint all_chars (p : ascii → bool) (s : string) : bool :=
  match s with
  | EmptyString => true
  | String c r => p c && all_chars p r
  end.

Definition starts_with_digit (s : string) : bool :=
  match s with
  | String c _ => is_digit c
  | EmptyString => false
  end.

(** The four characters "Age:" in any mix of upper and lower case. *)
Definition is_label (kw : string) : bool :=
  match kw with
  | String a (String g (String e (String k EmptyString))) =>
      ci "a" "A" a && ci "g" "G" g && ci "e" "E" e && Ascii.eqb k ":"
  | _ => false
  end.

(** The labels a completed chunk reports on (none when it raised). *)
Definition labels_of (fu : future) : list nat :=
  match fu.2 with
  | Ok (results, _) => results.*1
  | Raise _ => []
  end.

(** The worker of the chunk did not raise. *)
Definition completed (fu : future) : Prop := ∃ out, fu.2 = Ok out.

(** The merge seen from one row: the result reported for its label, and
    what becomes of the row. *)
Fixpoint result_for (j : nat) (cycle_results : list (nat * pyval)) : option pyval :=
  match cycle_results with
  | [] => None
  | (i, v) :: rest => if decide (i = j) then Some v else result_for j rest
  end.

Definition written_row (cycle_results : list (nat * pyval)) (j : nat) (r : row) : row :=
  match result_for j cycle_results with
  | Some v => if py_eq v DELETED then r else set_today v r
  | None => r
  end.

Definition merged_row (cycle_results : list (nat * pyval)) (j : nat) (r : row)
    : option row :=
  match result_for j cycle_results with
  | Some v => if py_eq v DELETED then None else Some (set_today v r)
  | None => Some r
  end.

(** One pass over the rows from label [k] on, each row decided by its own
    result. *)
Fixpoint rowwise (cycle_results : list (nat * pyval)) (k : nat) (f : frame) : frame :=
  match f with
  | [] => []
  | r :: f' =>
      match merged_row cycle_results k r with
      | Some r' => r' :: rowwise cycle_results (S k) f'
      | None => rowwise cycle_results (S k) f'
      end
  end.

(** ** Today's column (lines 120 to 122)

    The frame as it is read, before the rows are taken apart: the column
    names and, row by row, the cells under them. *)
Record dataframe : Type := Dataframe {
  columns : list string;
  cells : list (list pyval)
}.

(** [if today_str not in ath_age.columns: ath_age[today_str] = np.nan]: a
    new column goes to the right end, NaN in every row. *)
Definition ensure_today (today_str : string) (d : dataframe) : dataframe :=
  if bool_decide (today_str ∈ columns d) then d
  else {| columns := columns d ++ [today_str];
          cells := (λ r, r ++ [PNaN]) <$> cells d |}.

(** Every row has one cell per column. *)
Definition rectangular (d : dataframe) : Prop :=
  Forall (λ r, length r = length (columns d)) (cells d).

(** What a row is apart from today's cell. *)
Definition row_key (r : row) : option Z * option Z * list pyval :=
  (ath_id r, val r, hist r).

(** The site gives nothing: every try of every row fails, in every cycle. *)
Definition site_down (E : env) : Prop :=
  ∀ c ridx a, failed_try (page E c ridx a) = true.

(** ** Sizes at which the float arithmetic of the code is exact *)

(** An integer that float64 holds exactly, with every integer below it:
    at most 2^53 in magnitude. *)
Definition float_exact (z : Z) : Prop := Z.abs z ≤ 2 ^ 53.

Definition exact_cell (c : pyval) : Prop :=
  match c with
  | PInt z => float_exact z
  | _ => True
  end.

(** A frame whose reference values and date cells are such integers: on it
    the float64 comparisons of lines 128 and 129 are the comparisons of the
    integers. *)
Definition exact_row (r : row) : Prop :=
  (∀ v, val r = Some v → float_exact v)
  ∧ Forall exact_cell (hist r ++ [today r]).

Definition exact_frame (f : frame) : Prop := Forall exact_row f.

(** ** The run on the file system (lines 109 to 161)

    A CSV file is held as the frame the program gets from it: read, and
    today's column added when it is missing (lines 114 to 122).  [to_csv]
    replaces the whole file. *)
Definition disk : Type := string → option frame.

Definition csv_path (federation : string) : string :=
  federation +:+ "_results/athletes_age.csv".

Definition to_csv (path : string) (f : frame) (d : disk) : disk :=
  λ p, if String.eqb p path then Some f else d p.

(** The loop of line 125 with the file system it writes to: the frame in
    memory is saved at the end of every cycle that gets that far. *)
Fixpoint cycles_on_disk (E : env) (federation : string) (n_workers : Z)
    (cycles : list Z) (ath_age : frame) (d : disk) : stop * frame * disk :=
  match cycles with
  | [] => (BudgetSpent, ath_age, d)
  | c :: rest =>
      match backlog ath_age with
      | [] => (AllCaptured c, ath_age, d)
      | idx_list =>
          match scrape E federation n_workers c ath_age idx_list with
          | Raise e => (Crashed c e, ath_age, d)
          | Ok (_, (cycle_results, _)) =>
              let ath_age' := merge_purge ath_age cycle_results in
              cycles_on_disk E federation n_workers rest ath_age'
                (to_csv (csv_path federation) ath_age' d)
          end
      end
  end.

(** [run_scraping_cycle] from the file: a missing file ends the run at
    once ([None]), nothing written. *)
Definition run_on_disk (E : env) (federation : string) (n_workers : Z)
    (d : disk) : option stop * disk :=
  match d (csv_path federation) with
  | None => (None, d)
  | Some ath_age =>
      let '(s, _, d') :=
        cycles_on_disk E federation n_workers (py_range 1 6) ath_age d in
      (Some s, d')
  end.

(** The writes of the completed cycles, in order. *)
Definition saves (federation : string) (reps : list report) (d : disk) : disk :=
  foldl (λ d rep, to_csv (csv_path federation) (r_saved rep) d) d reps.

(** Following the spec's words: an entity whose result in some cycle is the
    sentinel is gone from the frame that cycle saves, and no page is loaded
    for it in any later cycle. *)
Definition deleted_permanence (E : env) (federation : string) (n_workers : Z)
    (f : frame) : Prop :=
  ∀ k rep i a,
    (run_scraping_cycle E federation n_workers f).1.1 !! k = Some rep →
    (i, DELETED) ∈ r_results rep →
    ath_id <$> r_before rep !! i = Some (Some a) →
    ¬ holds a (r_saved rep)
    ∧ ∀ j rep',
        (k < j)%nat →
        (run_scraping_cycle E federation n_workers f).1.1 !! j = Some rep' →
        EvGet (federation, a) ∉ r_events rep'.

(** Two rows that carry the same identifier.  The page of the row at
    label 0 shows the toast; at any other label it never loads. *)
Definition twin_frame : frame :=
  [ Row (Some 11) (Some 20) [PInt 19] PNaN;
    Row (Some 11) (Some 20) [PInt 19] PNaN ].

Definition twin_env : env :=
  {| page := λ _ ridx _, match ridx with 0%nat => Toast | _ => GetFails end;
     session_ok := λ _ _, true;
     finish := λ _ j, j |}.

(** A deleted profile in one chunk while the browser of the other chunk
    cannot be started. *)
Definition broken_env : env :=
  {| page := λ _ ridx _, match ridx with 0%nat => Toast | _ => GetFails end;
     session_ok := λ _ j, match j with 0%nat => true | _ => false end;
     finish := λ _ j, j |}.

Definition pair_frame : frame :=
  [ Row (Some 10) (Some 34) [PInt 33] PNaN;
    Row (Some 11) (Some 20) [PInt 19] PNaN ].

(** A deleted profile next to one that loads only in the second cycle. *)
Definition late_env : env :=
  {| page := λ c ridx _,
       if c =? 1 then match ridx with 1%nat => Toast | _ => GetFails end
       else Source "Age: 34";
     session_ok := λ _ _, true;
     finish := λ _ j, j |}.

(** * Properties *)

(** ** Ranges *)

Lemma py_range_cons (a b : Z) : a < b → py_range a b = a :: py_range (a + 1) b.
Proof.
  intros Hab. unfold py_range.
  replace (Z.to_nat (b - a)) with (S (Z.to_nat (b - (a + 1)))) by lia.
  cbn [seq fmap list_fmap]. f_equal; [lia|].
  rewrite <- fmap_S_seq, <- list_fmap_compose.
  apply list_fmap_ext. intros ? i ?. cbn. lia.
Qed.

Lemma py_range_nil (a b : Z) : b ≤ a → py_range a b = [].
Proof. intros Hab. unfold py_range. by replace (Z.to_nat (b - a)) with 0%nat by lia. Qed.

Lemma elem_of_py_range (a b i : Z) : i ∈ py_range a b ↔ a ≤ i < b.
Proof.
  unfold py_range. rewrite list_elem_of_fmap. split.
  - intros (k & -> & Hk). apply elem_of_seq in Hk. lia.
  - intros Hi. exists (Z.to_nat (i - a)). split; [lia|]. apply elem_of_seq. lia.
Qed.

(** ** One try and the retry loop *)

Lemma age_ok_in_range (v : pyval) :
  age_ok v = Ok true ↔ in_range v = true.
Proof. destruct v; cbn; split; intros H; congruence. Qed.

Lemma in_range_spec (v : pyval) :
  in_range v = true ↔ ∃ z, v = PInt z ∧ 3 ≤ z ≤ 200.
Proof.
  destruct v as [|z|s]; cbn.
  - split; [discriminate|]. by intros (? & ? & ?).
  - rewrite andb_true_iff, !Z.leb_le. split; [eauto|].
    intros (? & [= <-] & ?). lia.
  - split; [discriminate|]. by intros (? & ? & ?).
Qed.

(** The extractor gives NaN or an integer, never a string. *)
Lemma extract_age_cases (html : string) :
  extract_age html = PNaN ∨ ∃ z, extract_age html = PInt z.
Proof.
  unfold extract_age, extract_first.
  destruct (pat_age_compiled html) as [ds|]; [|by left].
  unfold py_int. destruct ds as [|c ds]; [by left|].
  destruct (String.length (String c ds) <=? int_max_str_digits)%nat;
    [|by left].
  destruct (int_acc 0 (String c ds)) as [z|]; cbn; eauto.
Qed.

(** A try returns only the sentinel or the accepted age of the page. *)
Lemma try_body_return (u : url) (o : try_obs) (v : pyval) (tr : list event) :
  try_body u o = (Return v, tr) →
  (o = Toast ∧ v = DELETED)
  ∨ (∃ html, o = Source html ∧ v = extract_age html ∧ in_range v = true).
Proof.
  destruct o as [| | | |html]; cbn; try congruence.
  - intros [= <- <-]. by left.
  - fold (extract_age html).
    destruct (age_ok (extract_age html)) as [[]|] eqn:Hok; intros [= <- <-].
    right. exists html. by rewrite <- age_ok_in_range.
Qed.

(** A failed try never returns. *)
Lemma try_body_failed (u : url) (o : try_obs) :
  failed_try o = true → ∀ v, (try_body u o).1 ≠ Return v.
Proof.
  destruct o as [| | | |html]; cbn; try done.
  fold (extract_age html). intros Hf v.
  destruct (age_ok (extract_age html)) as [[]|] eqn:Hok; try done.
  apply age_ok_in_range in Hok. rewrite Hok in Hf. done.
Qed.

(** A try that does not return hands over to the remaining attempts. *)
Lemma retry_loop_skip (driver : Z → try_obs) (u : url) (a : Z) (rest : list Z) :
  (∀ v, (try_body u (driver a)).1 ≠ Return v) →
  retry_loop driver u (a :: rest)
  = ((retry_loop driver u rest).1,
     (try_body u (driver a)).2 ++ (retry_loop driver u rest).2).
Proof.
  intros Hno. cbn [retry_loop].
  destruct (try_body u (driver a)) as [c tr] eqn:Hb.
  destruct (retry_loop driver u rest) as [v tr'].
  destruct c as [w| |e]; cbn in *; [by destruct (Hno w)|done|done].
Qed.

Lemma retry_loop_return (driver : Z → try_obs) (u : url) (a : Z) (rest : list Z)
    (v : pyval) (tr : list event) :
  try_body u (driver a) = (Return v, tr) →
  retry_loop driver u (a :: rest) = (v, tr).
Proof. intros Hb. cbn [retry_loop]. by rewrite Hb. Qed.

(** The result of the loop is NaN, or what one of its tries returned. *)
Lemma retry_loop_result (driver : Z → try_obs) (u : url) (attempts : list Z) :
  (retry_loop driver u attempts).1 = PNaN
  ∨ ∃ a tr, a ∈ attempts
      ∧ try_body u (driver a) = (Return (retry_loop driver u attempts).1, tr).
Proof.
  induction attempts as [|a rest IH]; [by left|].
  destruct (try_body u (driver a)) as [c tr] eqn:Hb.
  destruct c as [v| |e].
  - right. exists a, tr. rewrite (retry_loop_return _ _ _ _ _ _ Hb).
    split; [left|done].
  - rewrite retry_loop_skip by (rewrite Hb; done). cbn [fst].
    destruct IH as [IH|(a' & tr' & Ha' & IH)]; [by left|].
    right. exists a', tr'. split; [by right|done].
  - rewrite retry_loop_skip by (rewrite Hb; done). cbn [fst].
    destruct IH as [IH|(a' & tr' & Ha' & IH)]; [by left|].
    right. exists a', tr'. split; [by right|done].
Qed.

Lemma retry_loop_outcome (driver : Z → try_obs) (u : url) (attempts : list Z) :
  outcome_ok (retry_loop driver u attempts).1.
Proof.
  destruct (retry_loop_result driver u attempts) as [H|(a & tr & _ & H)].
  - right. by left.
  - apply try_body_return in H as [[_ H]|(html & _ & _ & H)].
    + by left.
    + right. right. by apply in_range_spec.
Qed.

(** Every page load of the loop asks for the URL it was given. *)
Lemma try_body_events (u : url) (o : try_obs) (u' : url) :
  EvGet u' ∈ (try_body u o).2 → u' = u.
Proof.
  destruct o; cbn; intros H;
    repeat (apply elem_of_cons in H as [H|H]; [congruence|]);
    by apply elem_of_nil in H.
Qed.

Lemma retry_loop_events (driver : Z → try_obs) (u : url) (attempts : list Z) (u' : url) :
  EvGet u' ∈ (retry_loop driver u attempts).2 → u' = u.
Proof.
  induction attempts as [|a rest IH]; cbn [retry_loop].
  - cbn. by rewrite elem_of_nil.
  - destruct (try_body u (driver a)) as [c tr] eqn:Hb.
    assert (EvGet u' ∈ tr → u' = u) as Htr.
    { intros H. apply (try_body_events u (driver a)). by rewrite Hb. }
    destruct (retry_loop driver u rest) as [v tr'].
    destruct c; cbn; [done|..]; rewrite elem_of_app; intros [?|?]; auto.
Qed.

(** When every attempt fails the loop ends with NaN. *)
Lemma retry_loop_all_failed (driver : Z → try_obs) (u : url) (attempts : list Z) :
  (∀ a, a ∈ attempts → failed_try (driver a) = true) →
  (retry_loop driver u attempts).1 = PNaN.
Proof.
  induction attempts as [|a rest IH]; intros Hall; [done|].
  rewrite retry_loop_skip.
  - cbn [fst]. apply IH. intros a' Ha'. apply Hall. by right.
  - apply try_body_failed, Hall. by left.
Qed.

(** A page with an accepted age ends the loop with that age. *)
Lemma retry_loop_found (driver : Z → try_obs) (u : url) (a : Z) (rest : list Z)
    (html : string) :
  driver a = Source html → in_range (extract_age html) = true →
  retry_loop driver u (a :: rest)
  = (extract_age html, [EvGet u; EvToastCheck; EvSettle; EvExtract html]).
Proof.
  intros Hd Hr. apply retry_loop_return. rewrite Hd. cbn.
  fold (extract_age html). apply age_ok_in_range in Hr. by rewrite Hr.
Qed.

(** An accepted age was read off a page by the pattern and [int]. *)
Lemma extract_age_parsed (html : string) (z : Z) :
  extract_age html = PInt z →
  ∃ ds, pat_age_compiled html = Some ds ∧ int_acc 0 ds = Some z.
Proof.
  unfold extract_age, extract_first.
  destruct (pat_age_compiled html) as [ds|]; [|done].
  unfold py_int. destruct ds as [|c ds]; [done|].
  destruct (String.length (String c ds) <=? int_max_str_digits)%nat; [|done].
  destruct (int_acc 0 (String c ds)) as [z'|] eqn:Hi; cbn; [|done].
  intros [= ->]. eauto.
Qed.

(** C5. When the first try shows the deleted-profile toast,
    [get_age_with_retry] returns the sentinel whatever [max_tries] (at least
    one) is: it loads the page once, waits the 5 second penalty, makes no
    further try and never runs the extractor. *)
Theorem C5_deleted_short_circuit (driver : Z → try_obs) (u : url) (max_tries : Z) :
  1 ≤ max_tries → driver 1 = Toast →
  get_age_with_retry driver u max_tries
    = (DELETED, [EvGet u; EvToastCheck; EvSleep 5])
  ∧ count_events is_get (get_age_with_retry driver u max_tries).2 = 1%nat
  ∧ count_events is_extract (get_age_with_retry driver u max_tries).2 = 0%nat.
Proof.
  intros Hm Hd.
  assert (get_age_with_retry driver u max_tries
          = (DELETED, [EvGet u; EvToastCheck; EvSleep 5])) as ->.
  { unfold get_age_with_retry. rewrite py_range_cons by lia.
    apply retry_loop_return. by rewrite Hd. }
  done.
Qed.

Lemma C5_deleted_short_circuit_witness :
  get_age_with_retry (λ a, if a =? 1 then Toast else Source "Age: 34")
      ("ifsc"%string, 42) 3
    = (DELETED, [EvGet ("ifsc"%string, 42); EvToastCheck; EvSleep 5]).
Proof.
  apply (C5_deleted_short_circuit
           (λ a, if a =? 1 then Toast else Source "Age: 34")
           ("ifsc"%string, 42) 3); [lia | reflexivity].
Defined.

(** C6. With [max_tries = 3]: when tries 1 and 2 fail and try 3 reads a page
    with an age from 3 to 200, the result is that age; when all three tries
    fail the result is NaN; and a try that raises is not propagated, the
    loop goes on with the remaining attempts as after any failed try. *)
Theorem C6_retry_budget (driver : Z → try_obs) (u : url) :
  (∀ html v,
     failed_try (driver 1) = true → failed_try (driver 2) = true →
     driver 3 = Source html → extract_age html = PInt v → 3 ≤ v ≤ 200 →
     (get_age_with_retry driver u 3).1 = PInt v)
  ∧ (failed_try (driver 1) = true → failed_try (driver 2) = true →
     failed_try (driver 3) = true →
     (get_age_with_retry driver u 3).1 = PNaN)
  ∧ (∀ a e rest,
       (try_body u (driver a)).1 = Raised e →
       failed_try (driver a) = true
       ∧ retry_loop driver u (a :: rest)
         = ((retry_loop driver u rest).1,
            (try_body u (driver a)).2 ++ (retry_loop driver u rest).2)).
Proof.
  assert (py_range 1 (3 + 1) = [1; 2; 3]) as Hr by reflexivity.
  unfold get_age_with_retry. rewrite Hr. split_and!.
  - intros html v H1 H2 H3 Hv Hrange.
    rewrite retry_loop_skip by by apply try_body_failed. cbn [fst].
    rewrite retry_loop_skip by by apply try_body_failed. cbn [fst].
    rewrite (retry_loop_found _ _ _ _ html); [done..|].
    apply in_range_spec. eauto.
  - intros H1 H2 H3. apply retry_loop_all_failed.
    intros a Ha. repeat (apply elem_of_cons in Ha as [->|Ha]; [done|]).
    by apply elem_of_nil in Ha.
  - intros a e rest He. split.
    + destruct (driver a) as [| | | |html]; cbn in *; try done.
      fold (extract_age html) in He.
      destruct (extract_age_cases html) as [Hx|[z Hx]]; rewrite Hx in *; cbn in *.
      * done.
      * by destruct ((3 <=? z) && (z <=? 200)).
    + apply retry_loop_skip. intros v. by rewrite He.
Qed.

Lemma C6_retry_budget_witness :
  (get_age_with_retry
     (λ a, if a =? 1 then GetFails
           else if a =? 2 then Source "Age: 2" else Source "Age: 34")
     ("ifsc"%string, 42) 3).1 = PInt 34
  ∧ (get_age_with_retry
       (λ a, if a =? 1 then GetFails
             else if a =? 2 then Source "Age: 2" else SourceFails)
       ("ifsc"%string, 42) 3).1 = PNaN.
Proof.
  split.
  - apply (proj1 (C6_retry_budget
        (λ a, if a =? 1 then GetFails
              else if a =? 2 then Source "Age: 2" else Source "Age: 34")
        ("ifsc"%string, 42)) "Age: 34"%string 34);
      [reflexivity | reflexivity | reflexivity | reflexivity | lia].
  - apply (proj1 (proj2 (C6_retry_budget
        (λ a, if a =? 1 then GetFails
              else if a =? 2 then Source "Age: 2" else SourceFails)
        ("ifsc"%string, 42)))); reflexivity.
Defined.

(** ** Chunks *)

(** [chunk_size] is the ceiling of [n / max(1, n_workers)]. *)
(** No underflow of the quotient for a worker count up to 2^53. *)
Lemma no_underflow (n : nat) (n_workers : Z) :
  (0 < n)%nat → n_workers ≤ 2 ^ 53 →
  (Z.of_nat n * 2 ^ 1075 <=? Z.max 1 n_workers) = false.
Proof.
  intros Hn Hw. apply Z.leb_gt.
  assert (2 ^ 53 < 2 ^ 1075) as Hp by (apply Z.pow_lt_mono_r; lia).
  assert (1 < 2 ^ 53) as H1 by (apply Z.pow_gt_1; lia).
  set (a := 2 ^ 53) in *. set (b := 2 ^ 1075) in *. nia.
Qed.

Lemma chunk_size_ceil (n : nat) (n_workers : Z) :
  (0 < n)%nat → n_workers ≤ 2 ^ 53 →
  (Z.of_nat (chunk_size n n_workers) - 1) * Z.max 1 n_workers < Z.of_nat n
  ∧ Z.of_nat n ≤ Z.of_nat (chunk_size n n_workers) * Z.max 1 n_workers.
Proof.
  intros Hn Hb. unfold chunk_size. cbv zeta. rewrite no_underflow by done.
  set (w := Z.max 1 n_workers). assert (1 ≤ w) as Hw by lia.
  pose proof (Z.div_mod (Z.of_nat n + w - 1) w ltac:(lia)) as Hdm.
  pose proof (Z.mod_pos_bound (Z.of_nat n + w - 1) w ltac:(lia)) as Hmod.
  assert (0 ≤ (Z.of_nat n + w - 1) / w) as Hq by (apply Z.div_pos; lia).
  rewrite Z2Nat.id by done. nia.
Qed.

Lemma chunk_size_pos (n : nat) (n_workers : Z) :
  (0 < n)%nat → n_workers ≤ 2 ^ 53 → (0 < chunk_size n n_workers)%nat.
Proof. intros Hn Hb. pose proof (chunk_size_ceil n n_workers Hn Hb). nia. Qed.

(** The number of steps of [range(0, n, size)]. *)
Lemma steps_bounds (n size : nat) :
  (0 < size)%nat →
  (n ≤ (n + size - 1) / size * size)%nat
  ∧ (0 < n → ((n + size - 1) / size - 1) * size < n)%nat.
Proof.
  intros Hs.
  pose proof (Nat.div_mod_eq (n + size - 1) size) as Hdm.
  pose proof (Nat.mod_upper_bound (n + size - 1) size ltac:(lia)) as Hmod.
  split; [nia|]. intros Hn.
  destruct ((n + size - 1) / size)%nat as [|q] eqn:Hq; nia.
Qed.

(** Slices of width [size] taken at the multiples of [size] put the list
    back together. *)
Lemma concat_slices (size m : nat) (l : list nat) :
  (0 < size)%nat → (length l ≤ m * size)%nat →
  concat ((λ k, take size (drop k l)) <$> ((λ i, i * size)%nat <$> seq 0 m)) = l.
Proof.
  intros Hs. revert l. induction m as [|m IH]; intros l Hl.
  - destruct l; [done|]. cbn in Hl. lia.
  - etrans; [|apply (take_drop size l)].
    rewrite <- cons_seq, <- fmap_S_seq. cbn [fmap list_fmap concat].
    rewrite drop_0. f_equal.
    etrans; [|apply (IH (drop size l)); rewrite length_drop; lia].
    f_equal. rewrite <- !list_fmap_compose.
    apply list_fmap_ext. intros _ i _. cbn.
    by rewrite drop_drop.
Qed.

Lemma make_chunks_eq (idx_list : list nat) (size : nat) :
  (0 < size)%nat →
  make_chunks idx_list size
  = Ok ((λ k, take size (drop k idx_list))
          <$> ((λ i, i * size)%nat
                 <$> seq 0 ((length idx_list + size - 1) / size)%nat)).
Proof. intros Hs. unfold make_chunks, py_range_step. by destruct size; [lia|]. Qed.

Lemma make_chunks_lookup (idx_list : list nat) (size j : nat) (ch : list nat) :
  ((λ k, take size (drop k idx_list))
     <$> ((λ i, i * size)%nat
            <$> seq 0 ((length idx_list + size - 1) / size)%nat)) !! j = Some ch →
  (j < (length idx_list + size - 1) / size)%nat
  ∧ ch = take size (drop (j * size) idx_list).
Proof.
  rewrite !list_lookup_fmap. intros H.
  destruct (seq 0 ((length idx_list + size - 1) / size) !! j) as [i|] eqn:Hi;
    [|done].
  apply lookup_seq in Hi as [-> Hj]. cbn in H. by injection H as <-.
Qed.

(** A non-positive worker count gives one chunk, the whole backlog. *)
Lemma make_chunks_one (idx_list : list nat) (n_workers : Z) :
  idx_list ≠ [] → n_workers ≤ 1 →
  make_chunks idx_list (chunk_size (length idx_list) n_workers) = Ok [idx_list].
Proof.
  intros Hne Hw.
  assert (0 < length idx_list)%nat as Hl by (destruct idx_list; [done|cbn; lia]).
  assert (1 < 2 ^ 53) as Hp by (apply Z.pow_gt_1; lia).
  assert (chunk_size (length idx_list) n_workers = length idx_list) as ->.
  { unfold chunk_size. cbv zeta. rewrite no_underflow by lia.
    replace (Z.max 1 n_workers) with 1 by lia. rewrite Z.div_1_r. lia. }
  rewrite make_chunks_eq by done.
  replace ((length idx_list + length idx_list - 1) / length idx_list)%nat
    with 1%nat.
  - cbn. by rewrite drop_0, firstn_all.
  - apply Nat.div_unique with (r := (length idx_list - 1)%nat); lia.
Qed.

(** C2. For a backlog that is not empty and at least one worker, at sizes
    for which the float quotient of line 137 has the ceiling of the exact
    one (length and worker count up to 2^53): the chunks put end to end are
    the backlog itself, so every
    index is in exactly one chunk, once; there are at most [n_workers]
    chunks; every chunk but the last has exactly ceil(N / n_workers)
    elements and the last has between one and that many. *)
Theorem C2_chunks_cover (idx_list : list nat) (n_workers : Z) :
  idx_list ≠ [] → 1 ≤ n_workers →
  float_exact (Z.of_nat (length idx_list)) → float_exact n_workers →
  ∃ chunks,
    make_chunks idx_list (chunk_size (length idx_list) n_workers) = Ok chunks
    ∧ concat chunks = idx_list
    ∧ Z.of_nat (length chunks) ≤ n_workers
    ∧ ∀ j ch, chunks !! j = Some ch →
        (1 ≤ length ch ≤ chunk_size (length idx_list) n_workers)%nat
        ∧ (S j < length chunks →
           length ch = chunk_size (length idx_list) n_workers)%nat.
Proof.
  intros Hne Hw _ Hex.
  assert (0 < length idx_list)%nat as Hl by (destruct idx_list; [done|cbn; lia]).
  assert (n_workers ≤ 2 ^ 53) as Hb by (unfold float_exact in Hex; lia).
  pose proof (chunk_size_pos (length idx_list) n_workers Hl Hb) as Hs.
  pose proof (chunk_size_ceil (length idx_list) n_workers Hl Hb) as [_ Hceil].
  replace (Z.max 1 n_workers) with n_workers in Hceil by lia.
  set (size := chunk_size (length idx_list) n_workers) in *.
  pose proof (steps_bounds (length idx_list) size Hs) as [Hup Hlow].
  specialize (Hlow Hl).
  eexists. split; [by apply make_chunks_eq|]. split_and!.
  - by apply concat_slices.
  - rewrite !length_fmap, length_seq. nia.
  - intros j ch Hj. apply make_chunks_lookup in Hj as [Hj ->].
    rewrite !length_fmap, length_seq, length_take, length_drop.
    split; [nia|]. intros Hlast. nia.
Qed.

Lemma C2_chunks_cover_witness :
  ∃ chunks,
    make_chunks [4; 7; 9; 12; 15]%nat (chunk_size 5 2) = Ok chunks
    ∧ concat chunks = [4; 7; 9; 12; 15]%nat
    ∧ Z.of_nat (length chunks) ≤ 2
    ∧ ∀ j ch, chunks !! j = Some ch →
        (1 ≤ length ch ≤ chunk_size 5 2)%nat
        ∧ (S j < length chunks → length ch = chunk_size 5 2)%nat.
Proof.
  apply (C2_chunks_cover [4; 7; 9; 12; 15]%nat 2);
    [done | lia | by vm_compute | by vm_compute].
Defined.

(** C2, as the specification words it, fails: ten indices for four workers
    are cut into chunks of 3, 3, 3 and 1, and 3 - 1 is more than 1. *)
Lemma C2_counterexample : ¬ partition_claim (seq 0 10) 4.
Proof.
  intros (chunks & Hc & _ & Hbal).
  vm_compute in Hc. injection Hc as <-.
  specialize (Hbal [0; 1; 2]%nat [9]%nat).
  cbn in Hbal. assert (3 ≤ 2)%nat; [|lia].
  apply Hbal; repeat constructor.
Qed.

(** ** The backlog *)

Lemma foldl_max_opt (cells : list pyval) (acc : option Z) (m : Z) :
  foldl max_opt acc cells = Some m ↔
    (acc = Some m ∨ PInt m ∈ cells)
    ∧ (∀ z, acc = Some z → z ≤ m)
    ∧ (∀ z, PInt z ∈ cells → z ≤ m).
Proof.
  revert acc. induction cells as [|c cells IH]; intros acc; cbn [foldl].
  - split.
    + intros ->. split_and!; [by left| |].
      * intros z [= ->]. lia.
      * intros z Hz. by apply elem_of_nil in Hz.
    + intros ([H|H] & _ & _); [done|]. by apply elem_of_nil in H.
  - rewrite IH. clear IH. unfold max_opt. setoid_rewrite elem_of_cons.
    destruct c as [|x|s], acc as [a|]; cbn [cell_num];
      try (destruct (Z.max_spec a x) as [[? ->]|[? ->]]);
      (split; intros (H1 & H2 & H3); (split_and!;
       [ destruct H1 as [[= H1]|H1]; subst; eauto; try lia;
         try (destruct H1 as [[= H1]|H1]; subst; eauto; try lia);
         try (exfalso; specialize (H3 x (or_introl eq_refl)); lia);
         try (left; f_equal; specialize (H2 _ eq_refl); lia)
       | intros z [= <-]; try lia;
         try (apply H2; f_equal; lia); try (apply H3; left; f_equal; lia);
         try (specialize (H2 _ eq_refl); specialize (H3 x); lia)
       | intros z Hz; try (destruct Hz as [[= Hz]|Hz]; subst);
         try (specialize (H2 _ eq_refl)); try lia; eauto ])).
Qed.

(** [rowmax] is the largest number of the date columns. *)
Lemma rowmax_is_max (r : row) (m : Z) :
  rowmax r = Some m ↔ is_max m (hist r ++ [today r]).
Proof.
  unfold rowmax, is_max. rewrite foldl_max_opt. split.
  - intros ([H|H] & _ & H3); done.
  - intros [H1 H2]. split_and!; [by right|done|done].
Qed.

Lemma is_max_today_nan (r : row) (m : Z) :
  today r = PNaN → is_max m (hist r ++ [today r]) ↔ is_max m (hist r).
Proof.
  intros Ht. unfold is_max. rewrite Ht.
  assert (∀ z, PInt z ∈ hist r ++ [PNaN] ↔ PInt z ∈ hist r) as Hiff.
  { intros z. rewrite elem_of_app, list_elem_of_singleton.
    split; [by intros [?|?]|by left]. }
  rewrite Hiff. by setoid_rewrite Hiff.
Qed.

(** The mask of line 129 in words. *)
Lemma mask_spec (r : row) :
  mask r = true ↔
    today r = PNaN ∧ ¬ ∃ m, val r = Some m ∧ is_max m (hist r).
Proof.
  unfold mask. rewrite andb_true_iff, negb_true_iff. split.
  - intros [Heq Hna]. assert (today r = PNaN) as Ht
      by by destruct (today r).
    split; [done|]. intros (m & Hv & Hm).
    rewrite <- (is_max_today_nan r m Ht), <- rowmax_is_max in Hm.
    rewrite Hv, Hm in Heq. cbn in Heq. by rewrite Z.eqb_refl in Heq.
  - intros [Ht Hno]. split; [|by rewrite Ht].
    destruct (val r) as [v|] eqn:Hv; [|done].
    destruct (rowmax r) as [m|] eqn:Hm; [|done]. cbn.
    apply Z.eqb_neq. intros ->. apply Hno. exists m. split; [done|].
    by rewrite <- (is_max_today_nan r m Ht), <- rowmax_is_max.
Qed.

Lemma elem_of_index_where (p : row → bool) (k : nat) (f : frame) (i : nat) :
  i ∈ index_where p k f ↔
    (k ≤ i)%nat ∧ ∃ r, f !! (i - k)%nat = Some r ∧ p r = true.
Proof.
  revert k. induction f as [|r f IH]; intros k; cbn [index_where].
  - rewrite elem_of_nil. split; [done|]. by intros (_ & ? & ? & _).
  - assert (i ∈ index_where p (S k) f ↔
            (k < i)%nat ∧ ∃ r', (r :: f) !! (i - k)%nat = Some r' ∧ p r' = true)
      as Htail.
    { rewrite IH. split.
      - intros (Hk & r' & Hl & Hp). split; [lia|]. exists r'. split; [|done].
        replace (i - k)%nat with (S (i - S k)) by lia. done.
      - intros (Hk & r' & Hl & Hp). split; [lia|]. exists r'. split; [|done].
        replace (i - k)%nat with (S (i - S k)) in Hl by lia. done. }
    destruct (p r) eqn:Hp.
    + rewrite elem_of_cons, Htail. split.
      * intros [->|[Hk H]]; [|split; [lia|done]].
        split; [lia|]. exists r. by rewrite Nat.sub_diag.
      * intros (Hk & r' & Hl & Hp').
        destruct (decide (i = k)) as [->|Hne]; [by left|].
        right. split; [lia|]. eauto.
    + rewrite Htail. split.
      * intros [Hk H]. split; [lia|done].
      * intros (Hk & r' & Hl & Hp').
        destruct (decide (i = k)) as [->|Hne].
        -- rewrite Nat.sub_diag in Hl. cbn in Hl. congruence.
        -- split; [lia|]. eauto.
Qed.

Lemma NoDup_index_where (p : row → bool) (k : nat) (f : frame) :
  NoDup (index_where p k f).
Proof.
  revert k. induction f as [|r f IH]; intros k; cbn [index_where].
  - constructor.
  - destruct (p r); [|done]. constructor; [|done].
    rewrite elem_of_index_where. lia.
Qed.

Lemma elem_of_backlog (f : frame) (i : nat) :
  i ∈ backlog f ↔ ∃ r, f !! i = Some r ∧ mask r = true.
Proof.
  unfold backlog. rewrite elem_of_index_where, Nat.sub_0_r.
  split; [by intros [_ ?]|]. intros ?. split; [lia|done].
Qed.

Lemma backlog_lt (f : frame) (i : nat) : i ∈ backlog f → (i < length f)%nat.
Proof.
  rewrite elem_of_backlog. intros (r & Hr & _). by apply lookup_lt_Some in Hr.
Qed.

(** C1. On a frame whose numbers float64 holds exactly (magnitude up to
    2^53), the backlog lists, each once, the labels of the rows whose value
    for today is absent and for which it is not the case that the reference
    value is present and equals the largest number in the row's date
    columns. *)
Theorem C1_backlog_max (f : frame) :
  exact_frame f →
  NoDup (backlog f)
  ∧ ∀ i, i ∈ backlog f ↔
      ∃ r, f !! i = Some r ∧ today r = PNaN
           ∧ ¬ ∃ m, val r = Some m ∧ is_max m (hist r).
Proof.
  intros _. split; [apply NoDup_index_where|].
  intros i. rewrite elem_of_backlog. by setoid_rewrite mask_spec.
Qed.

Lemma C1_backlog_max_witness :
  NoDup (backlog scenario_frame)
  ∧ ∀ i, i ∈ backlog scenario_frame ↔
      ∃ r, scenario_frame !! i = Some r ∧ today r = PNaN
           ∧ ¬ ∃ m, val r = Some m ∧ is_max m (hist r).
Proof.
  apply (C1_backlog_max scenario_frame).
  repeat (constructor;
          [split; [intros v [= <-]; by vm_compute
                  |repeat (constructor; [by vm_compute|]); constructor]|]).
  constructor.
Defined.

(** C1, as the specification words it, fails: for a reference value 34 and
    the observations 34 and then 33, the most recent observation differs
    from the reference, but the largest equals it and the row is left out
    of the backlog. *)
Lemma C1_counterexample :
  backlog [Row (Some 7) (Some 34) [PInt 34; PInt 33] PNaN]
  ≠ spec_backlog [Row (Some 7) (Some 34) [PInt 34; PInt 33] PNaN].
Proof. intros H. vm_compute in H. discriminate H. Qed.

(** ** Merge and purge *)

Lemma merge_fold (rs : list (nat * pyval)) (f : frame) (ids : list nat) :
  foldl merge_one (f, ids) rs = (writes f rs, ids ++ deleted_ids rs).
Proof.
  revert f ids. induction rs as [|[i v] rs IH]; intros f ids.
  - cbn. by rewrite app_nil_r.
  - cbn [foldl]. unfold writes. cbn [foldl]. fold (writes (write_one f (i, v)) rs).
    unfold merge_one at 2, write_one, deleted_ids, is_deleted. cbn [fst snd].
    rewrite filter_cons. unfold is_deleted. cbn [snd].
    destruct (py_eq v DELETED) eqn:Hv.
    + rewrite IH. rewrite decide_True by done. cbn. by rewrite <- app_assoc.
    + rewrite IH. rewrite decide_False by done. done.
Qed.

Lemma merge_eq (f : frame) (rs : list (nat * pyval)) :
  merge f rs = (writes f rs, deleted_ids rs).
Proof. unfold merge. by rewrite merge_fold. Qed.

Lemma drop_index_nil (k : nat) (f : frame) : drop_index [] k f = f.
Proof.
  revert k. induction f as [|r f IH]; intros k; [done|]. cbn.
  rewrite bool_decide_eq_false_2 by apply not_elem_of_nil. by rewrite IH.
Qed.

(** The guard [if ids_to_remove:] changes nothing: dropping no label is the
    identity. *)
Lemma merge_purge_eq (f : frame) (rs : list (nat * pyval)) :
  merge_purge f rs = drop_index (deleted_ids rs) 0%nat (writes f rs).
Proof.
  unfold merge_purge, purge. rewrite merge_eq. cbn [fst snd].
  destruct (deleted_ids rs); [by rewrite drop_index_nil|done].
Qed.

Lemma drop_index_ext (ids ids' : list nat) (k : nat) (f : frame) :
  (∀ i, i ∈ ids ↔ i ∈ ids') → drop_index ids k f = drop_index ids' k f.
Proof.
  intros Hiff. revert k. induction f as [|r f IH]; intros k; [done|]. cbn.
  rewrite (bool_decide_ext _ _ (Hiff k)). by rewrite IH.
Qed.

Lemma write_one_comm (f : frame) (p q : nat * pyval) :
  p.1 ≠ q.1 → write_one (write_one f p) q = write_one (write_one f q) p.
Proof.
  intros Hne. unfold write_one.
  destruct (is_deleted p), (is_deleted q); try done.
  by apply list_alter_alter_ne.
Qed.

(** Writes to distinct labels can be made in any order. *)
Lemma writes_Permutation (rs rs' : list (nat * pyval)) :
  rs ≡ₚ rs' → NoDup rs.*1 → ∀ f, writes f rs = writes f rs'.
Proof.
  induction 1 as [|x l l' Hp IH|x y l|l l' l'' Hp1 IH1 Hp2 IH2]; intros Hnd f.
  - done.
  - cbn in Hnd. apply NoDup_cons in Hnd as [_ Hnd].
    unfold writes. cbn [foldl]. by apply IH.
  - unfold writes. cbn [foldl]. f_equal. apply write_one_comm.
    cbn in Hnd. apply NoDup_cons in Hnd as [Hin _].
    intros Heq. apply Hin. rewrite Heq. by left.
  - rewrite IH1 by done. apply IH2. by rewrite <- Hp1.
Qed.

(** C9. The results of one cycle, whose labels are distinct and lie in the
    frame, give the same frame after merge and purge in whatever order the
    chunks completed. *)
Theorem C9_merge_commutes (f : frame) (rs rs' : list (nat * pyval)) :
  NoDup rs.*1 → Forall (λ p, (p.1 < length f)%nat) rs → rs ≡ₚ rs' →
  merge_purge f rs = merge_purge f rs'.
Proof.
  intros Hnd _ Hp. rewrite !merge_purge_eq.
  rewrite (writes_Permutation rs rs' Hp Hnd).
  apply drop_index_ext. intros i. unfold deleted_ids. by rewrite Hp.
Qed.

Lemma C9_merge_commutes_witness :
  merge_purge
    [Row (Some 10) (Some 34) [PInt 33] PNaN; Row (Some 11) (Some 20) [] PNaN;
     Row (Some 12) (Some 41) [PInt 40] PNaN]
    [(0%nat, PNaN); (1%nat, DELETED); (2%nat, PInt 41)]
  = merge_purge
    [Row (Some 10) (Some 34) [PInt 33] PNaN; Row (Some 11) (Some 20) [] PNaN;
     Row (Some 12) (Some 41) [PInt 40] PNaN]
    [(2%nat, PInt 41); (0%nat, PNaN); (1%nat, DELETED)].
Proof.
  apply C9_merge_commutes.
  - cbn. repeat (constructor; [by rewrite ?elem_of_cons, ?elem_of_nil; lia|]).
    constructor.
  - repeat (constructor; [cbn; lia|]). constructor.
  - change ([(0%nat, PNaN); (1%nat, DELETED)] ++ [(2%nat, PInt 41)]
            ≡ₚ [(2%nat, PInt 41)] ++ [(0%nat, PNaN); (1%nat, DELETED)]).
    apply Permutation_app_comm.
Defined.

(** ** What the workers return *)

Lemma result_ok_mono (series : list (option Z)) (ids ids' : list nat)
    (p : nat * pyval) :
  ids ⊆ ids' → result_ok series ids p → result_ok series ids' p.
Proof. intros Hsub (H1 & H2 & H3). split_and!; [by apply Hsub|done..]. Qed.

Lemma event_ok_mono (federation : string) (series : list (option Z))
    (ids ids' : list nat) (e : event) :
  ids ⊆ ids' → event_ok federation series ids e →
  event_ok federation series ids' e.
Proof.
  intros Hsub H u Hu. destruct (H u Hu) as (i & a & Hi & Hs & ->).
  exists i, a. split_and!; [by apply Hsub|done..].
Qed.

Lemma chunk_loop_ok (E : env) (c : Z) (federation : string) (ids : list nat)
    (series : list (option Z)) (rs : list (nat * pyval)) (tr : list event) :
  chunk_loop E c federation ids series = Ok (rs, tr) →
  Forall (result_ok series ids) rs ∧ Forall (event_ok federation series ids) tr.
Proof.
  revert rs tr. induction ids as [|i ids IH]; intros rs tr; cbn [chunk_loop].
  - intros [= <- <-]. by split.
  - destruct (series !! i) as [oa|] eqn:Hi; [|done].
    destruct (chunk_loop E c federation ids series) as [[rs0 tr0]|] eqn:Hrest.
    2:{ by destruct oa as [a|]; [destruct (get_age_with_retry _ _ _)|]. }
    destruct (IH _ _ eq_refl) as [IHr IHt].
    assert (ids ⊆ i :: ids) as Hsub by (intros x Hx; by right).
    assert (Forall (result_ok series (i :: ids)) rs0) as IHr'.
    { apply (Forall_impl _ _ _ IHr). intros p. by apply result_ok_mono. }
    assert (Forall (event_ok federation series (i :: ids)) tr0) as IHt'.
    { apply (Forall_impl _ _ _ IHt). intros e. by apply event_ok_mono. }
    destruct oa as [a|].
    + destruct (get_age_with_retry (page E c i) (federation, a) 3)
        as [age tr1] eqn:Hget.
      intros [= <- <-]. split.
      * constructor; [|done]. split_and!; cbn.
        -- by left.
        -- replace age with (get_age_with_retry (page E c i) (federation, a) 3).1
             by by rewrite Hget.
           apply retry_loop_outcome.
        -- eauto.
      * apply Forall_app. split; [|done].
        apply Forall_forall. intros e He u ->. exists i, a.
        split_and!; [by left|done|].
        apply (retry_loop_events (page E c i) (federation, a) (py_range 1 (3 + 1))).
        unfold get_age_with_retry in Hget. by rewrite Hget.
    + intros [= <- <-]. split; [|done].
      constructor; [|done]. split_and!; cbn; [by left|right; by left|done].
Qed.

Lemma collect_ok (futures : list future) (P : nat * pyval → Prop)
    (Q : event → Prop) (rs : list (nat * pyval)) (tr : list event) :
  (∀ t rs' tr', (t, Ok (rs', tr')) ∈ futures → Forall P rs' ∧ Forall Q tr') →
  collect futures = Ok (rs, tr) →
  Forall P rs ∧ Forall Q tr.
Proof.
  revert rs tr. induction futures as [|[t r] futures IH]; intros rs tr Hall;
    cbn [collect].
  - intros [= <- <-]. by split.
  - destruct r as [[rs1 tr1]|e]; [|done].
    destruct (collect futures) as [[rs2 tr2]|] eqn:Hrest; [|done].
    intros [= <- <-].
    destruct (Hall t rs1 tr1) as [H1 H2]; [by left|].
    destruct (IH rs2 tr2) as [H3 H4]; [|done|].
    { intros t' rs' tr' Hin. apply (Hall t'). by right. }
    split; by apply Forall_app.
Qed.

Lemma elem_of_concat (x : nat) (ls : list (list nat)) (l : list nat) :
  l ∈ ls → x ∈ l → x ∈ concat ls.
Proof.
  induction ls as [|l' ls IH]; intros Hl Hx.
  - by apply elem_of_nil in Hl.
  - cbn. apply elem_of_app. apply elem_of_cons in Hl as [->|Hl]; [by left|].
    right. by apply IH.
Qed.

Lemma dispatch_ok (E : env) (c : Z) (federation : string) (n_workers : Z)
    (chunks : list (list nat)) (series : list (option Z))
    (rs : list (nat * pyval)) (tr : list event) :
  dispatch E c federation n_workers chunks series = Ok (rs, tr) →
  0 < n_workers
  ∧ Forall (result_ok series (concat chunks)) rs
  ∧ Forall (event_ok federation series (concat chunks)) tr.
Proof.
  unfold dispatch. destruct (n_workers <=? 0) eqn:Hw; [done|].
  destruct (max_pool_workers <=? n_workers); [done|].
  apply Z.leb_gt in Hw. intros Hc. split; [done|].
  revert Hc. apply collect_ok. intros t rs' tr' Hin.
  unfold as_completed in Hin. rewrite merge_sort_Permutation in Hin.
  apply elem_of_lookup_imap in Hin as (j & ch & [= -> Hp] & Hch).
  symmetry in Hp. unfold _process_chunk_age in Hp.
  destruct (session_ok E c j); [|done]. apply chunk_loop_ok in Hp as [H1 H2].
  assert (ch ⊆ concat chunks) as Hsub.
  { intros x Hx. apply (elem_of_concat x chunks ch); [|done].
    by apply list_elem_of_lookup_2 in Hch. }
  split.
  - apply (Forall_impl _ _ _ H1). intros p. by apply result_ok_mono.
  - apply (Forall_impl _ _ _ H2). intros e. by apply event_ok_mono.
Qed.

Lemma make_chunks_concat (idx_list : list nat) (size : nat)
    (chunks : list (list nat)) :
  make_chunks idx_list size = Ok chunks → concat chunks = idx_list.
Proof.
  destruct (decide (size = 0%nat)) as [->|Hs]; [done|].
  rewrite make_chunks_eq by lia. intros [= <-].
  apply concat_slices; [lia|]. apply steps_bounds. lia.
Qed.

Lemma scrape_ok (E : env) (federation : string) (n_workers : Z) (c : Z)
    (f : frame) (idx_list : list nat) (chunks : list (list nat))
    (rs : list (nat * pyval)) (tr : list event) :
  scrape E federation n_workers c f idx_list = Ok (chunks, (rs, tr)) →
  0 < n_workers
  ∧ Forall (result_ok (ath_id <$> f) idx_list) rs
  ∧ Forall (event_ok federation (ath_id <$> f) idx_list) tr.
Proof.
  unfold scrape.
  destruct (make_chunks idx_list _) as [chs|] eqn:Hm; [|done].
  apply make_chunks_concat in Hm.
  destruct (dispatch E c federation n_workers chs (ath_id <$> f))
    as [[rs0 tr0]|] eqn:Hd; [|done].
  intros [= <- <- <-]. apply dispatch_ok in Hd. by rewrite Hm in Hd.
Qed.

(** C3. With a worker count of zero or less and a backlog that is not
    empty, the chunking is the one of a single worker, but creating the
    pool raises ValueError: the first cycle does not complete and nothing is
    saved, whereas with one worker the same backlog is dispatched. *)
Theorem C3_nonpositive_workers_crash (E : env) (federation : string)
    (n_workers : Z) (f : frame) :
  n_workers ≤ 0 → backlog f ≠ [] →
  make_chunks (backlog f) (chunk_size (length (backlog f)) n_workers)
    = make_chunks (backlog f) (chunk_size (length (backlog f)) 1)
  ∧ make_chunks (backlog f) (chunk_size (length (backlog f)) n_workers)
    = Ok [backlog f]
  ∧ dispatch E 1 federation n_workers [backlog f] (ath_id <$> f) = Raise ValueError
  ∧ run_scraping_cycle E federation n_workers f = ([], Crashed 1 ValueError, f).
Proof.
  intros Hw Hne.
  assert ((n_workers <=? 0) = true) as Hleb by by apply Z.leb_le.
  rewrite !make_chunks_one by first [done | lia]. split_and!; [done|done| |].
  - unfold dispatch. by rewrite Hleb.
  - unfold run_scraping_cycle. rewrite py_range_cons by lia.
    cbn [run_cycles]. destruct (backlog f) as [|i idx] eqn:Hb; [done|].
    unfold scrape. rewrite make_chunks_one by first [done | lia].
    unfold dispatch. by rewrite Hleb.
Qed.

Lemma C3_nonpositive_workers_crash_witness :
  run_scraping_cycle (Env (λ _ _ _, Source "Age: 34") (λ _ _, true) (λ _ j, j))
    "ifsc" 0 [Row (Some 7) (Some 35) [PInt 34] PNaN]
  = ([], Crashed 1 ValueError, [Row (Some 7) (Some 35) [PInt 34] PNaN]).
Proof.
  apply (C3_nonpositive_workers_crash
           (Env (λ _ _ _, Source "Age: 34") (λ _ _, true) (λ _ j, j))
           "ifsc" 0 [Row (Some 7) (Some 35) [PInt 34] PNaN]); [lia | done].
Defined.

(** ** Rows after merge and purge *)

Lemma py_eq_DELETED (v : pyval) : py_eq v DELETED = true ↔ v = DELETED.
Proof.
  destruct v as [|z|s]; cbn; try (split; [discriminate|by intros [=]]).
  rewrite String.eqb_eq. split; [by intros ->|by intros [= ->]].
Qed.

Lemma elem_of_deleted_ids (rs : list (nat * pyval)) (i : nat) :
  i ∈ deleted_ids rs ↔ (i, DELETED) ∈ rs.
Proof.
  unfold deleted_ids. rewrite list_elem_of_fmap. split.
  - intros ([j v] & -> & Hin). apply list_elem_of_filter in Hin as [Hd Hin].
    unfold is_deleted in Hd. cbn in Hd. apply py_eq_DELETED in Hd. by subst.
  - intros Hin. exists (i, DELETED). split; [done|].
    apply list_elem_of_filter. split; [|done]. done.
Qed.

(** A row after the writes is the row that was there, with today's cell
    kept or set to a result that is not the sentinel. *)
Lemma writes_lookup (rs : list (nat * pyval)) (f : frame) (i : nat) (r' : row) :
  writes f rs !! i = Some r' →
  ∃ r, f !! i = Some r
       ∧ ath_id r' = ath_id r ∧ val r' = val r ∧ hist r' = hist r
       ∧ (today r' = today r
          ∨ ∃ v, (i, v) ∈ rs ∧ v ≠ DELETED ∧ today r' = v).
Proof.
  revert f. induction rs as [|[j v] rs IH]; intros f; unfold writes; cbn [foldl].
  - intros Hl. exists r'. split_and!; try done. by left.
  - fold (writes (write_one f (j, v)) rs). intros Hl.
    apply IH in Hl as (r1 & Hl & Ha & Hv & Hh & Ht).
    assert (∃ r, f !! i = Some r
                 ∧ ath_id r1 = ath_id r ∧ val r1 = val r ∧ hist r1 = hist r
                 ∧ (today r1 = today r
                    ∨ (i = j ∧ v ≠ DELETED ∧ today r1 = v)))
      as (r & Hr & Ha1 & Hv1 & Hh1 & Ht1).
    { unfold write_one, is_deleted in Hl. cbn [fst snd] in Hl.
      destruct (py_eq v DELETED) eqn:Hd.
      - exists r1. split_and!; try done. by left.
      - destruct (decide (j = i)) as [->|Hne].
        + rewrite list_lookup_alter_eq in Hl.
          destruct (f !! i) as [r|]; [|done]. injection Hl as <-.
          exists r. split_and!; try done. right. split_and!; try done.
          intros ->. by rewrite (proj2 (py_eq_DELETED DELETED)) in Hd.
        + rewrite list_lookup_alter_ne in Hl by done.
          exists r1. split_and!; try done. by left. }
    exists r. split_and!; try congruence.
    destruct Ht as [Ht|(w & Hin & Hw & Ht)].
    + destruct Ht1 as [Ht1|(-> & Hd & Ht1)]; [left; congruence|].
      right. exists v. split_and!; [by left|done|congruence].
    + right. exists w. split_and!; [by right|done|done].
Qed.

(** The rows that survive [drop_index] are those whose label is not listed. *)
Lemma elem_of_drop_index (ids : list nat) (k : nat) (f : frame) (r : row) :
  r ∈ drop_index ids k f → ∃ j, ((k + j)%nat ∉ ids) ∧ f !! j = Some r.
Proof.
  revert k. induction f as [|r0 f IH]; intros k; cbn [drop_index].
  - intros H. by apply elem_of_nil in H.
  - destruct (bool_decide (k ∈ ids)) eqn:Hk.
    + intros H. apply IH in H as (j & Hj & Hl). exists (S j).
      split; [|done]. by replace (k + S j)%nat with (S k + j)%nat by lia.
    + apply bool_decide_eq_false in Hk. intros H.
      apply elem_of_cons in H as [->|H].
      * exists 0%nat. split; [|done]. by rewrite Nat.add_0_r.
      * apply IH in H as (j & Hj & Hl). exists (S j).
        split; [|done]. by replace (k + S j)%nat with (S k + j)%nat by lia.
Qed.

(** A row of the saved frame: it was in the frame before at a label that
    was not deleted, and only today's cell may have changed, to a result of
    the cycle. *)
Lemma merge_purge_rows (f : frame) (rs : list (nat * pyval)) (r' : row) :
  r' ∈ merge_purge f rs →
  ∃ i r, f !! i = Some r ∧ ((i, DELETED) ∉ rs)
         ∧ ath_id r' = ath_id r ∧ val r' = val r ∧ hist r' = hist r
         ∧ (today r' = today r
            ∨ ∃ v, (i, v) ∈ rs ∧ v ≠ DELETED ∧ today r' = v).
Proof.
  rewrite merge_purge_eq. intros H.
  apply elem_of_drop_index in H as (i & Hi & Hl). cbn in Hi.
  rewrite elem_of_deleted_ids in Hi.
  apply writes_lookup in Hl as (r & Hr & H'). exists i, r.
  split; [done|]. split; [done|]. exact H'.
Qed.

Lemma omap_ath_id_alter (v : pyval) (i : nat) (f : frame) :
  omap ath_id (alter (set_today v) i f) = omap ath_id f.
Proof.
  revert i. induction f as [|r f IH]; intros i; [done|].
  destruct i as [|i]; cbn; [done|]. by rewrite IH.
Qed.

Lemma omap_ath_id_writes (rs : list (nat * pyval)) (f : frame) :
  omap ath_id (writes f rs) = omap ath_id f.
Proof.
  revert f. induction rs as [|p rs IH]; intros f; [done|].
  unfold writes. cbn [foldl]. fold (writes (write_one f p) rs).
  rewrite IH. unfold write_one. destruct (is_deleted p); [done|].
  apply omap_ath_id_alter.
Qed.

Lemma omap_ath_id_drop_index (ids : list nat) (k : nat) (f : frame) :
  omap ath_id (drop_index ids k f) `sublist_of` omap ath_id f.
Proof.
  revert k. induction f as [|r f IH]; intros k; cbn [drop_index]; [done|].
  destruct (bool_decide (k ∈ ids)); cbn; destruct (ath_id r); cbn;
    try done.
  - by apply sublist_cons.
  - by apply sublist_skip.
Qed.

(** Merge and purge keep the store keyed. *)
Lemma keyed_merge_purge (f : frame) (rs : list (nat * pyval)) :
  keyed f → keyed (merge_purge f rs).
Proof.
  unfold keyed. intros Hk. rewrite merge_purge_eq.
  apply (sublist_NoDup _ (omap ath_id (writes f rs))).
  - by rewrite omap_ath_id_writes.
  - apply omap_ath_id_drop_index.
Qed.

(** In a keyed store an identifier names one label. *)
Lemma keyed_lookup (f : frame) (i j : nat) (r r' : row) (a : Z) :
  keyed f → f !! i = Some r → f !! j = Some r' →
  ath_id r = Some a → ath_id r' = Some a → i = j.
Proof.
  unfold keyed. revert i j. induction f as [|r0 f IH]; intros i j Hk Hi Hj Ha Ha';
    [done|].
  assert (∀ k r1, f !! k = Some r1 → ath_id r1 = Some a → a ∈ omap ath_id f)
    as Hin.
  { intros k r1 Hl Hr1. apply list_elem_of_omap. exists r1.
    split; [by apply list_elem_of_lookup_2 in Hl|done]. }
  assert (NoDup (omap ath_id f)) as Hk'.
  { cbn in Hk. destruct (ath_id r0); [by apply NoDup_cons in Hk as [_ ?]|done]. }
  destruct i as [|i], j as [|j]; cbn in Hi, Hj.
  - done.
  - injection Hi as ->. cbn in Hk. rewrite Ha in Hk.
    apply NoDup_cons in Hk as [Hk _]. destruct Hk. by apply (Hin j r').
  - injection Hj as ->. cbn in Hk. rewrite Ha' in Hk.
    apply NoDup_cons in Hk as [Hk _]. destruct Hk. by apply (Hin i r).
  - f_equal. by apply (IH i j).
Qed.

(** An identifier the saved frame holds was held before. *)
Lemma holds_merge_purge (a : Z) (f : frame) (rs : list (nat * pyval)) :
  holds a (merge_purge f rs) → holds a f.
Proof.
  intros (r' & Hin & Ha).
  apply merge_purge_rows in Hin as (i & r & Hl & _ & Hid & _).
  exists r. split; [by apply list_elem_of_lookup_2 in Hl|congruence].
Qed.

(** In a keyed store a row marked deleted takes its identifier with it. *)
Lemma deleted_not_held (f : frame) (rs : list (nat * pyval)) (i : nat)
    (r : row) (a : Z) :
  keyed f → f !! i = Some r → ath_id r = Some a → (i, DELETED) ∈ rs →
  ¬ holds a (merge_purge f rs).
Proof.
  intros Hk Hl Ha Hdel (r' & Hin & Ha').
  apply merge_purge_rows in Hin as (j & r1 & Hl1 & Hnd & Hid & _).
  assert (i = j) as <-; [|done].
  apply (keyed_lookup f i j r r1 a); try done. congruence.
Qed.

(** ** The run as a chain of cycles *)

Lemma run_cycles_chain (E : env) (federation : string) (n_workers : Z)
    (cycles : list Z) (f : frame) :
  let run := run_cycles E federation n_workers cycles f in
  chain E federation n_workers f run.1.1 run.2
  ∧ r_cycle <$> run.1.1 = take (length run.1.1) cycles
  ∧ match run.1.2 with
    | AllCaptured c =>
        cycles !! length run.1.1 = Some c ∧ backlog run.2 = []
    | BudgetSpent => length run.1.1 = length cycles
    | Crashed c e =>
        cycles !! length run.1.1 = Some c ∧ backlog run.2 ≠ []
        ∧ scrape E federation n_workers c run.2 (backlog run.2) = Raise e
    end.
Proof.
  cbv zeta. revert f. induction cycles as [|c rest IH]; intros f;
    cbn [run_cycles]; [done|].
  destruct (backlog f) as [|i idx] eqn:Hb; [done|].
  rewrite <- Hb.
  destruct (scrape E federation n_workers c f (backlog f))
    as [[chunks [rs tr]]|e] eqn:Hs.
  2:{ cbn. split_and!; try done. change (backlog f ≠ []). by rewrite Hb. }
  specialize (IH (merge_purge f rs)).
  destruct (run_cycles E federation n_workers rest (merge_purge f rs))
    as [[reps s] final].
  cbn in IH |- *. destruct IH as (Hch & Hcy & Hstop).
  split_and!; try done.
  - by rewrite Hb.
  - by rewrite Hcy.
  - destruct s; [done| |done]. by rewrite Hstop.
Qed.

Lemma chain_lookup (E : env) (federation : string) (n_workers : Z)
    (reps : list report) (f final : frame) (k : nat) (rep : report) :
  chain E federation n_workers f reps final → reps !! k = Some rep →
  chain E federation n_workers (r_before rep) (rep :: drop (S k) reps) final.
Proof.
  revert f k. induction reps as [|rep0 reps IH]; intros f k Hch Hk; [done|].
  destruct k as [|k]; cbn in Hk.
  - injection Hk as ->. cbn in Hch |- *. rewrite ?drop_0.
    destruct Hch as (Hbef & Hrest). by rewrite Hbef.
  - cbn in Hch. destruct Hch as (_ & _ & _ & _ & _ & Hch).
    by apply (IH _ _ Hch).
Qed.

(** Every report of a chain is a cycle of the program on the frame it
    started from. *)
Lemma chain_report (E : env) (federation : string) (n_workers : Z)
    (reps : list report) (f final : frame) (rep : report) :
  chain E federation n_workers f reps final → rep ∈ reps →
  r_backlog rep = backlog (r_before rep)
  ∧ r_backlog rep ≠ []
  ∧ scrape E federation n_workers (r_cycle rep) (r_before rep) (r_backlog rep)
    = Ok (r_chunks rep, (r_results rep, r_events rep))
  ∧ r_saved rep = merge_purge (r_before rep) (r_results rep).
Proof.
  intros Hch Hin. apply list_elem_of_lookup_1 in Hin as [k Hk].
  apply (chain_lookup _ _ _ _ _ _ _ _ Hch) in Hk. cbn in Hk.
  destruct Hk as (_ & Hb & Hne & Hs & Hsv & _).
  rewrite Hb. by split_and!.
Qed.

(** The run on the file system is the run on the loaded frame, with the
    writes of its completed cycles. *)
Lemma cycles_on_disk_run (E : env) (federation : string) (n_workers : Z)
    (cycles : list Z) (f : frame) (d : disk) :
  cycles_on_disk E federation n_workers cycles f d
  = ((run_cycles E federation n_workers cycles f).1.2,
     (run_cycles E federation n_workers cycles f).2,
     saves federation (run_cycles E federation n_workers cycles f).1.1 d).
Proof.
  revert f d. induction cycles as [|c rest IH]; intros f d;
    cbn [cycles_on_disk run_cycles]; [done|].
  destruct (backlog f) as [|i idx]; [done|].
  destruct (scrape E federation n_workers c f (i :: idx))
    as [[chunks [rs tr]]|e]; [|done].
  rewrite IH.
  by destruct (run_cycles E federation n_workers rest (merge_purge f rs))
    as [[reps s] final].
Qed.

Lemma to_csv_same (path : string) (f : frame) (d : disk) :
  to_csv path f d path = Some f.
Proof. unfold to_csv. by rewrite String.eqb_refl. Qed.

Lemma to_csv_other (path p : string) (f : frame) (d : disk) :
  p ≠ path → to_csv path f d p = d p.
Proof. intros Hp. unfold to_csv. by destruct (String.eqb_spec p path). Qed.

(** The writes touch one file only. *)
Lemma saves_other (federation : string) (reps : list report) (d : disk)
    (p : string) :
  p ≠ csv_path federation → saves federation reps d p = d p.
Proof.
  intros Hp. revert d. induction reps as [|rep reps IH]; intros d; [done|].
  change (saves federation (rep :: reps) d)
    with (saves federation reps (to_csv (csv_path federation) (r_saved rep) d)).
  by rewrite IH, to_csv_other.
Qed.

(** After the writes of a chain of cycles the file holds the frame the
    chain ends with. *)
Lemma saves_final (E : env) (federation : string) (n_workers : Z)
    (reps : list report) (f final : frame) (d : disk) :
  chain E federation n_workers f reps final →
  d (csv_path federation) = Some f →
  saves federation reps d (csv_path federation) = Some final.
Proof.
  revert f d. induction reps as [|rep reps IH]; intros f d Hch Hd.
  - cbn in Hch. by subst.
  - cbn in Hch. destruct Hch as (_ & _ & _ & _ & _ & Hch).
    change (saves federation (rep :: reps) d)
      with (saves federation reps
              (to_csv (csv_path federation) (r_saved rep) d)).
    apply (IH _ _ Hch), to_csv_same.
Qed.

(** When the loop has gone through the cycle of a report, the file holds
    the frame of that report. *)
Lemma cycles_on_disk_prefix (E : env) (federation : string) (n_workers : Z)
    (cycles : list Z) (f : frame) (d : disk) (k : nat) (rep : report) :
  (run_cycles E federation n_workers cycles f).1.1 !! k = Some rep →
  (cycles_on_disk E federation n_workers (take (S k) cycles) f d).2
    (csv_path federation)
  = Some (r_saved rep).
Proof.
  revert f d k. induction cycles as [|c rest IH]; intros f d k; [done|].
  cbn [take cycles_on_disk run_cycles].
  destruct (backlog f) as [|i idx]; [done|].
  destruct (scrape E federation n_workers c f (i :: idx))
    as [[chunks [rs tr]]|e]; [|done].
  destruct (run_cycles E federation n_workers rest (merge_purge f rs))
    as [[reps s] final] eqn:Hrun.
  destruct k as [|k]; cbn [lookup list_lookup fst].
  - intros [= <-]. rewrite take_0. cbn. apply to_csv_same.
  - intros Hk. apply IH. by rewrite Hrun.
Qed.

(** C8. A run completes at most 5 cycles, numbered from 1.  Each completed
    cycle starts from the frame the cycle before saved (the first from the
    loaded one), recomputes the backlog from it, finds it not empty,
    scrapes it without an exception, and ends by saving the merged and
    purged frame.  The run stops at the first cycle that finds its backlog
    empty, which may be cycle 1; otherwise it stops after cycle 5, or in
    the cycle whose scraping raises, before that cycle merges or saves
    anything.  On the file system: when the loop has gone through a
    completed cycle the file holds the frame that cycle merged and purged;
    when the run stops, however it stops, the file holds the frame in
    memory and no other file was touched; a missing file ends the run
    before any cycle. *)
Theorem C8_at_most_five_cycles (E : env) (federation : string) (n_workers : Z)
    (f : frame) :
  let run := run_scraping_cycle E federation n_workers f in
  (length run.1.1 ≤ 5)%nat
  ∧ r_cycle <$> run.1.1 = py_range 1 (1 + Z.of_nat (length run.1.1))
  ∧ chain E federation n_workers f run.1.1 run.2
  ∧ (∀ rep, rep ∈ run.1.1 →
       r_backlog rep = backlog (r_before rep) ∧ r_backlog rep ≠ []
       ∧ scrape E federation n_workers (r_cycle rep) (r_before rep)
           (r_backlog rep)
         = Ok (r_chunks rep, (r_results rep, r_events rep))
       ∧ r_saved rep = merge_purge (r_before rep) (r_results rep))
  ∧ (backlog f = [] → run = ([], AllCaptured 1, f))
  ∧ match run.1.2 with
    | AllCaptured c =>
        c = 1 + Z.of_nat (length run.1.1) ∧ (length run.1.1 < 5)%nat
        ∧ backlog run.2 = []
    | BudgetSpent => length run.1.1 = 5%nat
    | Crashed c e =>
        c = 1 + Z.of_nat (length run.1.1) ∧ (length run.1.1 < 5)%nat
        ∧ backlog run.2 ≠ []
        ∧ scrape E federation n_workers c run.2 (backlog run.2) = Raise e
    end
  ∧ (∀ d, d (csv_path federation) = Some f →
       (run_on_disk E federation n_workers d).1 = Some run.1.2
       ∧ (run_on_disk E federation n_workers d).2 (csv_path federation)
         = Some run.2
       ∧ (∀ p, p ≠ csv_path federation →
            (run_on_disk E federation n_workers d).2 p = d p)
       ∧ ∀ k rep, run.1.1 !! k = Some rep →
           (cycles_on_disk E federation n_workers
              (take (S k) (py_range 1 6)) f d).2 (csv_path federation)
           = Some (r_saved rep))
  ∧ (∀ d, d (csv_path federation) = None →
       run_on_disk E federation n_workers d = (None, d)).
Proof.
  cbv zeta. unfold run_scraping_cycle.
  pose proof (run_cycles_chain E federation n_workers (py_range 1 6) f) as H.
  cbv zeta in H. destruct H as (Hch & Hcy & Hstop).
  pose proof (cycles_on_disk_run E federation n_workers (py_range 1 6) f)
    as Hdisk.
  pose proof (cycles_on_disk_prefix E federation n_workers (py_range 1 6) f)
    as Hpre.
  set (run := run_cycles E federation n_workers (py_range 1 6) f) in *.
  assert (py_range 1 6 = [1; 2; 3; 4; 5]) as Hr by reflexivity.
  assert (length run.1.1 ≤ 5)%nat as Hlen.
  { apply (f_equal length) in Hcy.
    rewrite length_fmap, length_take, Hr in Hcy. cbn in Hcy. lia. }
  assert (∀ c, py_range 1 6 !! length run.1.1 = Some c →
               c = 1 + Z.of_nat (length run.1.1)
               ∧ (length run.1.1 < 5)%nat) as Hnth.
  { intros c Hc. split.
    - unfold py_range in Hc. rewrite list_lookup_fmap in Hc.
      destruct (seq 0 (Z.to_nat (6 - 1)) !! length run.1.1) as [i|] eqn:Hi;
        [|done].
      apply lookup_seq in Hi as [-> _]. cbn in Hc. by injection Hc as <-.
    - apply lookup_lt_Some in Hc. by rewrite Hr in Hc. }
  split_and!.
  - done.
  - rewrite Hcy, Hr.
    destruct (length run.1.1) as [|[|[|[|[|[|n]]]]]]; try reflexivity. lia.
  - done.
  - intros rep Hin.
    destruct (chain_report _ _ _ _ _ _ _ Hch Hin) as (H1 & H2 & H3 & H4).
    by split_and!.
  - intros Hb. subst run. rewrite Hr. cbn [run_cycles]. by rewrite Hb.
  - destruct (run.1.2) as [c| |c e].
    + destruct Hstop as [Hc Hb]. destruct (Hnth c Hc). by split_and!.
    + by rewrite Hstop, Hr.
    + destruct Hstop as (Hc & Hb & Hs). destruct (Hnth c Hc). by split_and!.
  - intros d Hd. unfold run_on_disk. rewrite Hd, Hdisk. cbn [fst snd].
    split_and!; [done| |by intros p Hp; apply saves_other|by intros k rep; apply Hpre].
    by apply (saves_final E federation n_workers _ f).
  - intros d Hd. unfold run_on_disk. by rewrite Hd.
Qed.

(** ** Deleted rows stay away *)

Lemma chain_keyed (E : env) (federation : string) (n_workers : Z)
    (reps : list report) (f final : frame) :
  chain E federation n_workers f reps final → keyed f →
  (∀ rep, rep ∈ reps → keyed (r_before rep)) ∧ keyed final.
Proof.
  revert f. induction reps as [|rep reps IH]; intros f Hch Hk.
  - cbn in Hch. subst. split; [|done]. intros rep H. by apply elem_of_nil in H.
  - cbn in Hch. destruct Hch as (Hbef & _ & _ & _ & Hsv & Hch).
    destruct (IH _ Hch) as [IH1 IH2].
    { rewrite Hsv. by apply keyed_merge_purge. }
    split; [|done]. intros rep' Hin.
    apply elem_of_cons in Hin as [->|Hin]; [by rewrite Hbef|by apply IH1].
Qed.

(** A page load for [a] needs a row that carries [a]. *)
Lemma event_ok_holds (federation : string) (f : frame) (ids : list nat)
    (tr : list event) (a : Z) :
  Forall (event_ok federation (ath_id <$> f) ids) tr →
  EvGet (federation, a) ∈ tr → holds a f.
Proof.
  intros Hall Hin. rewrite Forall_forall in Hall.
  destruct (Hall _ Hin _ eq_refl) as (i & a' & _ & Hl & [= ->]).
  rewrite list_lookup_fmap in Hl.
  destruct (f !! i) as [r|] eqn:Hr; [|done]. cbn in Hl. injection Hl as Hl.
  exists r. split; [by apply list_elem_of_lookup_2 in Hr|done].
Qed.

(** An identifier that the store does not hold is not held, listed or
    fetched in any cycle of the chain. *)
Lemma chain_not_held (E : env) (federation : string) (n_workers : Z)
    (reps : list report) (f final : frame) (a : Z) :
  chain E federation n_workers f reps final → ¬ holds a f →
  (∀ rep, rep ∈ reps →
     ¬ holds a (r_before rep) ∧ ¬ holds a (r_saved rep)
     ∧ EvGet (federation, a) ∉ r_events rep)
  ∧ ¬ holds a final.
Proof.
  revert f. induction reps as [|rep reps IH]; intros f Hch Hno.
  - cbn in Hch. subst. split; [|done]. intros rep H. by apply elem_of_nil in H.
  - cbn in Hch. destruct Hch as (Hbef & _ & _ & Hs & Hsv & Hch).
    assert (¬ holds a (r_saved rep)) as Hno'.
    { rewrite Hsv. intros H. by apply Hno, (holds_merge_purge a f (r_results rep)). }
    destruct (IH _ Hch Hno') as [IH1 IH2]. split; [|done].
    intros rep' Hin. apply elem_of_cons in Hin as [->|Hin]; [|by apply IH1].
    split_and!; [by rewrite Hbef|done|].
    apply scrape_ok in Hs as (_ & _ & Hev).
    intros Hin. by apply Hno, (event_ok_holds federation f _ _ a Hev).
Qed.

(** C4. In a store keyed by entity (no two rows carry the same
    identifier), a row whose result in a cycle that completes (every chunk
    returned, so the merge ran) is the sentinel carries an identifier; the
    frame saved by that same cycle no longer holds it, nor does the frame
    at the end of the run; and in every later cycle of the run no row holds
    it, no label of the backlog points at it, and no page is loaded for
    it. *)
Theorem C4_deleted_permanent (E : env) (federation : string) (n_workers : Z)
    (f : frame) (k : nat) (rep : report) (i : nat) :
  keyed f →
  (run_scraping_cycle E federation n_workers f).1.1 !! k = Some rep →
  (i, DELETED) ∈ r_results rep →
  ∃ a, ath_id <$> r_before rep !! i = Some (Some a)
       ∧ ¬ holds a (r_saved rep)
       ∧ ¬ holds a (run_scraping_cycle E federation n_workers f).2
       ∧ ∀ j rep',
           (k < j)%nat →
           (run_scraping_cycle E federation n_workers f).1.1 !! j = Some rep' →
           ¬ holds a (r_before rep')
           ∧ (∀ i', i' ∈ r_backlog rep' →
                ath_id <$> r_before rep' !! i' ≠ Some (Some a))
           ∧ EvGet (federation, a) ∉ r_events rep'.
Proof.
  intros Hk Hrep Hdel. unfold run_scraping_cycle in *.
  pose proof (run_cycles_chain E federation n_workers (py_range 1 6) f) as H.
  cbv zeta in H. destruct H as (Hch & _ & _).
  set (reps := (run_cycles E federation n_workers (py_range 1 6) f).1.1) in *.
  set (final := (run_cycles E federation n_workers (py_range 1 6) f).2) in *.
  destruct (chain_keyed _ _ _ _ _ _ Hch Hk) as [Hkeyed _].
  assert (keyed (r_before rep)) as Hkrep
    by by apply Hkeyed, (list_elem_of_lookup_2 _ k).
  pose proof (chain_lookup _ _ _ _ _ _ _ _ Hch Hrep) as Hch'.
  cbn in Hch'. destruct Hch' as (_ & _ & _ & Hs & Hsv & Htail).
  apply scrape_ok in Hs as (_ & Hres & _).
  rewrite Forall_forall in Hres.
  destruct (Hres _ Hdel) as (_ & _ & Hid). cbn in Hid.
  destruct Hid as [a Ha]; [done|]. rewrite list_lookup_fmap in Ha.
  exists a. split; [done|].
  destruct (r_before rep !! i) as [r|] eqn:Hr; [|done].
  cbn in Ha. injection Ha as Ha.
  assert (¬ holds a (r_saved rep)) as Hgone.
  { rewrite Hsv. by apply (deleted_not_held _ _ i r a). }
  destruct (chain_not_held _ _ _ _ _ _ a Htail Hgone) as [Hlater Hfinal].
  split_and!; [done|done|].
  intros j rep' Hj Hrep'.
  assert (rep' ∈ drop (S k) reps) as Hin.
  { apply list_elem_of_lookup. exists (j - S k)%nat.
    rewrite lookup_drop. by replace (S k + (j - S k))%nat with j by lia. }
  destruct (Hlater _ Hin) as (Hb & _ & Hev). split_and!; [done| |done].
  intros i' _ Hi'. apply Hb.
  destruct (r_before rep' !! i') as [r'|] eqn:Hr'; [|done].
  cbn in Hi'. injection Hi' as Hi'.
  exists r'. split; [by apply list_elem_of_lookup_2 in Hr'|done].
Qed.

Lemma C4_deleted_permanent_witness :
  ∃ rep rep',
    (run_scraping_cycle late_env "ifsc" 10 pair_frame).1.1 !! 0%nat = Some rep
    ∧ (run_scraping_cycle late_env "ifsc" 10 pair_frame).1.1 !! 1%nat
      = Some rep'
    ∧ ∃ a, ath_id <$> r_before rep !! 1%nat = Some (Some a)
       ∧ ¬ holds a (r_saved rep)
       ∧ ¬ holds a (run_scraping_cycle late_env "ifsc" 10 pair_frame).2
       ∧ ∀ j rep',
           (0 < j)%nat →
           (run_scraping_cycle late_env "ifsc" 10 pair_frame).1.1 !! j
             = Some rep' →
           ¬ holds a (r_before rep')
           ∧ (∀ i', i' ∈ r_backlog rep' →
                ath_id <$> r_before rep' !! i' ≠ Some (Some a))
           ∧ EvGet ("ifsc"%string, a) ∉ r_events rep'.
Proof.
  do 2 eexists. split; [vm_compute; reflexivity|].
  split; [vm_compute; reflexivity|].
  apply (C4_deleted_permanent late_env "ifsc" 10 pair_frame 0).
  - apply (bool_decide_unpack _). vm_compute. exact I.
  - vm_compute. reflexivity.
  - vm_compute. repeat constructor.
Defined.

(** C4, as the specification words it, fails in two ways.  Two rows carry
    the same identifier: the first shows the toast and is removed, the
    second stays, so the frame the cycle saves still holds the entity (and
    the next cycle loads its page again).  And the outcome Deleted comes
    in a cycle that does not complete: the browser of another chunk cannot
    be started, the run ends on the exception before the merge, and the
    row is still in the store. *)
Lemma C4_counterexample :
  ¬ deleted_permanence twin_env "ifsc" 10 twin_frame
  ∧ (∃ rep', (run_scraping_cycle twin_env "ifsc" 10 twin_frame).1.1 !! 1%nat
               = Some rep'
             ∧ EvGet ("ifsc"%string, 11) ∈ r_events rep')
  ∧ (∃ tr, _process_chunk_age broken_env 1 0 "ifsc" [0%nat]
             (ath_id <$> pair_frame)
           = Ok ([(0%nat, DELETED)], tr))
  ∧ run_scraping_cycle broken_env "ifsc" 2 pair_frame
    = ([], Crashed 1 WebDriverException, pair_frame)
  ∧ holds 10 pair_frame.
Proof.
  split_and!.
  - intros H. unfold deleted_permanence in H.
    assert (∃ rep,
              (run_scraping_cycle twin_env "ifsc" 10 twin_frame).1.1 !! 0%nat
                = Some rep
              ∧ (0%nat, DELETED) ∈ r_results rep
              ∧ ath_id <$> r_before rep !! 0%nat = Some (Some 11)
              ∧ holds 11 (r_saved rep)) as (rep & H1 & H2 & H3 & H4).
    { eexists. split; [vm_compute; reflexivity|].
      split_and!; [vm_compute; repeat constructor|vm_compute; reflexivity|].
      eexists. split; [vm_compute; constructor|reflexivity]. }
    destruct (H 0%nat rep 0%nat 11 H1 H2 H3) as [Hno _]. by apply Hno.
  - eexists. split; [vm_compute; reflexivity|vm_compute; repeat constructor].
  - eexists. vm_compute. reflexivity.
  - vm_compute. reflexivity.
  - eexists. split; [vm_compute; constructor|reflexivity].
Qed.

(** The specification's scenario: cycle 1 scrapes rows 1 and 2, purges row 1
    and stores 41 in row 2; cycle 2 finds nothing left and the run stops. *)
Example scenario_run :
  r_backlog <$> (run_scraping_cycle scenario_env "ifsc" 10 scenario_frame).1.1
    = [[1; 2]%nat]
  ∧ (run_scraping_cycle scenario_env "ifsc" 10 scenario_frame).1.2
    = AllCaptured 2
  ∧ (run_scraping_cycle scenario_env "ifsc" 10 scenario_frame).2
    = [ Row (Some 10) (Some 34) [PInt 33; PInt 34] PNaN;
        Row (Some 12) (Some 41) [PNaN; PInt 40] (PInt 41) ].
Proof. by vm_compute. Qed.

(** ** Only accepted ages are stored *)

Lemma row_from_refl (f : frame) (r : row) : r ∈ f → row_from f r.
Proof. intros Hin. exists r. split_and!; try done. by left. Qed.

Lemma row_from_trans (f f' : frame) (r'' : row) :
  (∀ r', r' ∈ f' → row_from f r') → row_from f' r'' → row_from f r''.
Proof.
  intros Hall (r' & Hin & Ha & Hv & Hh & Ht).
  destruct (Hall _ Hin) as (r & Hin0 & Ha0 & Hv0 & Hh0 & Ht0).
  exists r. split_and!; try congruence.
  destruct Ht as [Ht|Ht]; [|by right]. rewrite Ht. exact Ht0.
Qed.

(** One cycle: the rows it saves come from the rows it started with. *)
Lemma merge_purge_row_from (f : frame) (rs : list (nat * pyval)) (r' : row) :
  Forall (result_ok (ath_id <$> f) (backlog f)) rs →
  r' ∈ merge_purge f rs → row_from f r'.
Proof.
  intros Hres Hin. rewrite Forall_forall in Hres.
  apply merge_purge_rows in Hin as (i & r & Hl & _ & Ha & Hv & Hh & Ht).
  exists r. split_and!; try done; [by apply list_elem_of_lookup_2 in Hl|].
  destruct Ht as [Ht|(v & Hin & Hnd & Ht)]; [by left|].
  destruct (Hres _ Hin) as (Hback & Hout & _). cbn in Hback, Hout.
  apply elem_of_backlog in Hback as (r0 & Hl0 & Hm).
  assert (r0 = r) as -> by congruence.
  apply mask_spec in Hm as [Htoday _].
  destruct Hout as [Hout|[Hout|Hout]]; [done| |].
  - left. congruence.
  - right. by rewrite Ht.
Qed.

Lemma chain_row_from (E : env) (federation : string) (n_workers : Z)
    (reps : list report) (f final : frame) :
  chain E federation n_workers f reps final →
  (∀ rep r', rep ∈ reps → r' ∈ r_saved rep → row_from f r')
  ∧ (∀ r', r' ∈ final → row_from f r').
Proof.
  revert f. induction reps as [|rep reps IH]; intros f Hch.
  - cbn in Hch. subst. split; [|apply row_from_refl].
    intros rep r' H. by apply elem_of_nil in H.
  - cbn in Hch. destruct Hch as (_ & _ & _ & Hs & Hsv & Hch).
    apply scrape_ok in Hs as (_ & Hres & _).
    assert (∀ r', r' ∈ r_saved rep → row_from f r') as Hstep.
    { intros r'. rewrite Hsv. by apply merge_purge_row_from. }
    destruct (IH _ Hch) as [IH1 IH2]. split.
    + intros rep' r' Hin Hr'. apply elem_of_cons in Hin as [->|Hin];
        [by apply Hstep|].
      apply (row_from_trans f (r_saved rep)); [done|]. by apply (IH1 rep').
    + intros r' Hr'. apply (row_from_trans f (r_saved rep)); [done|].
      by apply IH2.
Qed.

Lemma retry_loop_const_failed (html : string) (u : url) (max_tries : Z) :
  in_range (extract_age html) = false →
  (get_age_with_retry (λ _, Source html) u max_tries).1 = PNaN.
Proof.
  intros Hr. apply retry_loop_all_failed. intros a _. cbn. by rewrite Hr.
Qed.

(** C7. An integer that [get_age_with_retry] returns lies in [3, 200] and is
    the decimal value of the digits the pattern found on the page of one of
    the tries.  A page that reads "Age: 2" or "Age: abc" on every try gives
    NaN; one that reads "Age: 34" gives 34.  In every frame a run saves,
    and in the frame it ends with, each row is a row of the loaded frame
    whose cell for today is the one it had or an integer in [3, 200]. *)
Theorem C7_range_enforced :
  (∀ driver u max_tries z,
     (get_age_with_retry driver u max_tries).1 = PInt z →
     3 ≤ z ≤ 200
     ∧ ∃ a html ds,
         1 ≤ a ≤ max_tries ∧ driver a = Source html
         ∧ pat_age_compiled html = Some ds ∧ int_acc 0 ds = Some z)
  ∧ (∀ u max_tries,
       (get_age_with_retry (λ _, Source "Age: 2") u max_tries).1 = PNaN
       ∧ (get_age_with_retry (λ _, Source "Age: abc") u max_tries).1 = PNaN)
  ∧ (∀ u max_tries,
       1 ≤ max_tries →
       (get_age_with_retry (λ _, Source "Age: 34") u max_tries).1 = PInt 34)
  ∧ (∀ E federation n_workers f r',
       (r' ∈ (run_scraping_cycle E federation n_workers f).2
        ∨ ∃ rep, rep ∈ (run_scraping_cycle E federation n_workers f).1.1
                 ∧ r' ∈ r_saved rep) →
       row_from f r').
Proof.
  split_and!.
  - intros driver u max_tries z Hz. unfold get_age_with_retry in Hz.
    destruct (retry_loop_result driver u (py_range 1 (max_tries + 1)))
      as [Hnan|(a & tr & Ha & Hb)]; [congruence|].
    rewrite Hz in Hb. apply elem_of_py_range in Ha.
    apply try_body_return in Hb as [[_ Hb]|(html & Hd & Hx & Hr)]; [done|].
    apply in_range_spec in Hr as (z' & [= <-] & Hr). split; [done|].
    symmetry in Hx. apply extract_age_parsed in Hx as (ds & Hp & Hi).
    exists a, html, ds. split_and!; try done; lia.
  - intros u max_tries. split; by apply retry_loop_const_failed.
  - intros u max_tries Hm. unfold get_age_with_retry.
    rewrite py_range_cons by lia.
    by rewrite (retry_loop_found _ _ _ _ "Age: 34").
  - intros E federation n_workers f r' Hr'. unfold run_scraping_cycle in Hr'.
    pose proof (run_cycles_chain E federation n_workers (py_range 1 6) f) as H.
    cbv zeta in H. destruct H as (Hch & _ & _).
    apply chain_row_from in Hch as [H1 H2].
    destruct Hr' as [Hr'|(rep & Hrep & Hr')]; [by apply H2|by apply (H1 rep)].
Qed.

Lemma C7_range_enforced_witness :
  (get_age_with_retry (λ _, Source "Age: 34") ("ifsc"%string, 42) 3).1 = PInt 34
  ∧ row_from scenario_frame (Row (Some 12) (Some 41) [PNaN; PInt 40] (PInt 41)).
Proof.
  split.
  - apply (proj1 (proj2 (proj2 C7_range_enforced)) ("ifsc"%string, 42) 3). lia.
  - apply (proj2 (proj2 (proj2 C7_range_enforced))
             scenario_env "ifsc"%string 10 scenario_frame).
    left. vm_compute. repeat constructor.
Defined.

(** ** The three outcomes and the sentinel test *)

Lemma deleted_ids_filter (rs : list (nat * pyval)) :
  deleted_ids rs = (filter (λ p, p.2 = DELETED) rs).*1.
Proof.
  unfold deleted_ids. f_equal. apply list_filter_iff.
  intros p. unfold is_deleted. apply py_eq_DELETED.
Qed.

(** C10. Whatever the browser shows, [get_age_with_retry] returns the
    sentinel string, NaN, or an integer in [3, 200].  On the results a
    dispatch collects, the test [age == "DELETED"] of the merge loop marks
    for removal exactly the labels whose result is the sentinel; an age is
    never among them; and a cell of today's column after the loop is the
    cell that was there, NaN, or an integer in [3, 200], never a sentinel
    that the loop wrote. *)
Theorem C10_outcome_domain :
  (∀ driver u max_tries, outcome_ok (get_age_with_retry driver u max_tries).1)
  ∧ (∀ v, outcome_ok v → (py_eq v DELETED = true ↔ v = DELETED))
  ∧ (∀ z, py_eq (PInt z) DELETED = false)
  ∧ (∀ E c federation n_workers chunks series rs tr f,
       dispatch E c federation n_workers chunks series = Ok (rs, tr) →
       Forall (λ p, outcome_ok p.2) rs
       ∧ (merge f rs).2 = (filter (λ p, p.2 = DELETED) rs).*1
       ∧ (∀ i r', (merge f rs).1 !! i = Some r' →
            ∃ r, f !! i = Some r
                 ∧ (today r' = today r ∨ today r' = PNaN
                    ∨ ∃ z, today r' = PInt z ∧ 3 ≤ z ≤ 200))).
Proof.
  split_and!.
  - intros driver u max_tries. apply retry_loop_outcome.
  - intros v _. apply py_eq_DELETED.
  - done.
  - intros E c federation n_workers chunks series rs tr f Hd.
    apply dispatch_ok in Hd as (_ & Hres & _).
    assert (Forall (λ p : nat * pyval, outcome_ok p.2) rs) as Hout.
    { apply (Forall_impl _ _ _ Hres). by intros p (_ & H & _). }
    rewrite merge_eq. cbn [fst snd]. split_and!; [done| |].
    + apply deleted_ids_filter.
    + intros i r' Hl.
      apply writes_lookup in Hl as (r & Hr & _ & _ & _ & Ht).
      exists r. split; [done|].
      destruct Ht as [Ht|(v & Hin & Hnd & Ht)]; [by left|]. right.
      rewrite Forall_forall in Hout.
      destruct (Hout _ Hin) as [H|[H|H]]; cbn in H; [done| |].
      * left. congruence.
      * right. by rewrite Ht.
Qed.

Lemma C10_outcome_domain_witness :
  ∃ rs tr,
    dispatch scenario_env 1 "ifsc" 10 [[1%nat]; [2%nat]] (ath_id <$> scenario_frame)
      = Ok (rs, tr)
    ∧ Forall (λ p, outcome_ok p.2) rs
    ∧ (merge scenario_frame rs).2 = (filter (λ p, p.2 = DELETED) rs).*1
    ∧ (∀ i r', (merge scenario_frame rs).1 !! i = Some r' →
         ∃ r, scenario_frame !! i = Some r
              ∧ (today r' = today r ∨ today r' = PNaN
                 ∨ ∃ z, today r' = PInt z ∧ 3 ≤ z ≤ 200)).
Proof.
  eexists _, _. split; [vm_compute; reflexivity|].
  eapply (proj2 (proj2 (proj2 C10_outcome_domain))
            scenario_env 1 "ifsc"%string 10 [[1%nat]; [2%nat]]
            (ath_id <$> scenario_frame)).
  vm_compute. reflexivity.
Defined.

(** * Further properties of the retry loop *)

Lemma count_events_app (p : event → bool) (tr tr' : list event) :
  count_events p (tr ++ tr') = (count_events p tr + count_events p tr')%nat.
Proof. unfold count_events. by rewrite filter_app, length_app. Qed.

(** Every try loads the page once and runs the extractor at most once. *)
Lemma try_body_counts (u : url) (o : try_obs) :
  count_events is_get (try_body u o).2 = 1%nat
  ∧ (count_events is_extract (try_body u o).2 ≤ 1)%nat.
Proof. destruct o; cbn; split; done || (cbv; lia). Qed.

(** Attempts that fail only add their traces. *)
Lemma retry_loop_app_failed (driver : Z → try_obs) (u : url) (l1 l2 : list Z) :
  (∀ a, a ∈ l1 → failed_try (driver a) = true) →
  (retry_loop driver u (l1 ++ l2)).1 = (retry_loop driver u l2).1
  ∧ count_events is_get (retry_loop driver u (l1 ++ l2)).2
    = (length l1 + count_events is_get (retry_loop driver u l2).2)%nat.
Proof.
  induction l1 as [|a l1 IH]; intros Hall; [done|].
  destruct IH as [IH1 IH2]; [intros a' Ha'; apply Hall; by right|].
  cbn [app]. rewrite retry_loop_skip by (apply try_body_failed, Hall; by left).
  cbn [fst snd length]. split; [done|].
  rewrite count_events_app, IH2.
  destruct (try_body_counts u (driver a)) as [-> _]. lia.
Qed.

(** Once the loop has a result that is not NaN, later attempts are not
    made. *)
Lemma retry_loop_app_settled (driver : Z → try_obs) (u : url) (l1 l2 : list Z) :
  (retry_loop driver u l1).1 ≠ PNaN →
  retry_loop driver u (l1 ++ l2) = retry_loop driver u l1.
Proof.
  induction l1 as [|a l1 IH]; intros Hres; [done|].
  cbn [app retry_loop] in *.
  destruct (try_body u (driver a)) as [c tr]. destruct c as [v| |e]; [done|..];
    destruct (retry_loop driver u l1) as [v1 tr1] eqn:H1;
    cbn in Hres; rewrite (IH Hres); done.
Qed.

Lemma py_range_split (a k b : Z) :
  a ≤ k ≤ b → py_range a b = py_range a k ++ py_range k b.
Proof.
  intros Hk. unfold py_range.
  replace (Z.to_nat (b - a)) with (Z.to_nat (k - a) + Z.to_nat (b - k))%nat
    by lia.
  rewrite seq_app, fmap_app. f_equal. cbn [Nat.add].
  replace (Z.to_nat (k - a)) with (Z.to_nat (k - a) + 0)%nat at 1 by lia.
  rewrite <- (fmap_add_seq (Z.to_nat (k - a)) 0), <- list_fmap_compose.
  apply list_fmap_ext. intros _ i _. cbn. lia.
Qed.

Lemma length_py_range (a b : Z) : length (py_range a b) = Z.to_nat (b - a).
Proof. unfold py_range. by rewrite length_fmap, length_seq. Qed.

(** X1. With no try allowed ([max_tries <= 0]) the function returns NaN at
    once: no page is loaded and nothing is waited for. *)
Theorem retry_no_tries (driver : Z → try_obs) (u : url) (max_tries : Z) :
  max_tries ≤ 0 → get_age_with_retry driver u max_tries = (PNaN, []).
Proof.
  intros Hm. unfold get_age_with_retry. by rewrite py_range_nil by lia.
Qed.

Lemma retry_no_tries_witness :
  get_age_with_retry (λ _, Toast) ("ifsc"%string, 42) 0 = (PNaN, []).
Proof. apply retry_no_tries. lia. Defined.

(** X2. The first try that does not fail decides the fetch, on whichever
    attempt it comes: the toast gives the sentinel, a page gives its age,
    and exactly that many pages were loaded. *)
Theorem retry_first_decisive (driver : Z → try_obs) (u : url)
    (max_tries k : Z) :
  1 ≤ k ≤ max_tries →
  (∀ a, 1 ≤ a < k → failed_try (driver a) = true) →
  failed_try (driver k) = false →
  (get_age_with_retry driver u max_tries).1
    = match driver k with
      | Toast => DELETED
      | Source html => extract_age html
      | _ => PNaN
      end
  ∧ count_events is_get (get_age_with_retry driver u max_tries).2 = Z.to_nat k.
Proof.
  intros Hk Hfail Hdec. unfold get_age_with_retry.
  rewrite (py_range_split 1 k (max_tries + 1)) by lia.
  rewrite (py_range_cons k) by lia.
  destruct (retry_loop_app_failed driver u (py_range 1 k)
              (k :: py_range (k + 1) (max_tries + 1))) as [-> ->].
  { intros a Ha. apply elem_of_py_range in Ha. by apply Hfail. }
  rewrite length_py_range.
  destruct (driver k) as [| | | |html] eqn:Hd; try done.
  - rewrite (retry_loop_return _ _ _ _ DELETED [EvGet u; EvToastCheck; EvSleep 5])
      by by rewrite Hd.
    split; [done|]. change (Z.to_nat (k - 1) + 1 = Z.to_nat k)%nat. lia.
  - cbn in Hdec. apply negb_false_iff in Hdec.
    rewrite (retry_loop_found _ _ _ _ html) by done.
    split; [done|]. change (Z.to_nat (k - 1) + 1 = Z.to_nat k)%nat. lia.
Qed.

Lemma retry_first_decisive_witness :
  (get_age_with_retry
     (λ a, if a =? 1 then Source "loading" else Toast)
     ("ifsc"%string, 42) 3).1 = DELETED
  ∧ count_events is_get
      (get_age_with_retry
         (λ a, if a =? 1 then Source "loading" else Toast)
         ("ifsc"%string, 42) 3).2 = 2%nat.
Proof.
  apply (retry_first_decisive
           (λ a, if a =? 1 then Source "loading" else Toast)
           ("ifsc"%string, 42) 3 2).
  - lia.
  - intros a Ha. assert (a = 1) as -> by lia. reflexivity.
  - reflexivity.
Defined.

Lemma retry_loop_counts (driver : Z → try_obs) (u : url) (attempts : list Z) :
  (count_events is_extract (retry_loop driver u attempts).2
   ≤ count_events is_get (retry_loop driver u attempts).2)%nat
  ∧ (count_events is_get (retry_loop driver u attempts).2 ≤ length attempts)%nat
  ∧ ((retry_loop driver u attempts).1 = PNaN →
     count_events is_get (retry_loop driver u attempts).2 = length attempts).
Proof.
  induction attempts as [|a rest (IH1 & IH2 & IH3)]; [by cbn|].
  destruct (try_body_counts u (driver a)) as [Hg Hx].
  destruct (try_body u (driver a)) as [c tr] eqn:Hb. cbn [snd] in Hg, Hx.
  destruct c as [v| |e].
  - rewrite (retry_loop_return _ _ _ _ _ _ Hb). cbn [fst snd length].
    split_and!; [lia|lia|].
    intros ->. apply try_body_return in Hb as [[_ Hb]|(? & _ & _ & Hb)]; done.
  - rewrite retry_loop_skip by (rewrite Hb; done). rewrite Hb.
    cbn [fst snd length]. rewrite !count_events_app.
    split_and!; [lia|lia|]. intros H. rewrite (IH3 H). lia.
  - rewrite retry_loop_skip by (rewrite Hb; done). rewrite Hb.
    cbn [fst snd length]. rewrite !count_events_app.
    split_and!; [lia|lia|]. intros H. rewrite (IH3 H). lia.
Qed.

(** X3. A fetch loads the page at most [max_tries] times and runs the
    extractor at most once per load; an unresolved fetch (NaN) has spent the
    whole budget, one load per allowed try. *)
Theorem retry_budget_spent (driver : Z → try_obs) (u : url) (max_tries : Z) :
  (count_events is_extract (get_age_with_retry driver u max_tries).2
   ≤ count_events is_get (get_age_with_retry driver u max_tries).2)%nat
  ∧ (count_events is_get (get_age_with_retry driver u max_tries).2
     ≤ Z.to_nat max_tries)%nat
  ∧ ((get_age_with_retry driver u max_tries).1 = PNaN →
     count_events is_get (get_age_with_retry driver u max_tries).2
     = Z.to_nat max_tries).
Proof.
  unfold get_age_with_retry.
  pose proof (retry_loop_counts driver u (py_range 1 (max_tries + 1))) as H.
  rewrite length_py_range in H.
  by replace (Z.to_nat (max_tries + 1 - 1)) with (Z.to_nat max_tries) in H by lia.
Qed.

(** X4. A larger try budget never changes a fetch that was settled within
    the smaller one: the result and the whole trace stay the same. *)
Theorem retry_budget_monotone (driver : Z → try_obs) (u : url) (m m' : Z) :
  m ≤ m' →
  (get_age_with_retry driver u m).1 ≠ PNaN →
  get_age_with_retry driver u m' = get_age_with_retry driver u m.
Proof.
  intros Hm Hres. unfold get_age_with_retry in *.
  destruct (decide (m ≤ 0)) as [Hneg|Hpos].
  { rewrite (py_range_nil 1 (m + 1)) in Hres by lia. done. }
  rewrite (py_range_split 1 (m + 1) (m' + 1)) by lia.
  by apply retry_loop_app_settled.
Qed.

Lemma retry_budget_monotone_witness :
  get_age_with_retry (λ a, if a =? 1 then GetFails else Source "Age: 34")
    ("ifsc"%string, 42) 5
  = get_age_with_retry (λ a, if a =? 1 then GetFails else Source "Age: 34")
      ("ifsc"%string, 42) 2.
Proof.
  apply (retry_budget_monotone
           (λ a, if a =? 1 then GetFails else Source "Age: 34")
           ("ifsc"%string, 42) 2 5); [lia|].
  vm_compute. discriminate.
Defined.

(** * Further properties of the extractor *)

Lemma digit_not_space (c : ascii) : is_digit c = true → is_space c = false.
Proof.
  destruct c as [b0 b1 b2 b3 b4 b5 b6 b7].
  destruct b0, b1, b2, b3, b4, b5, b6, b7; cbv; congruence.
Qed.

Lemma append_cons (c : ascii) (s t : string) :
  String c s +:+ t = String c (s +:+ t).
Proof. reflexivity. Qed.

Lemma append_nil (t : string) : ""%string +:+ t = t.
Proof. reflexivity. Qed.

Lemma skip_spaces_split (r : string) :
  ∃ ws, r = ws +:+ skip_spaces r ∧ all_chars is_space ws = true.
Proof.
  induction r as [|c r (ws & Hr & Hws)]; [by exists ""%string|].
  cbn [skip_spaces]. destruct (is_space c) eqn:Hc.
  - exists (String c ws). split; [|cbn; by rewrite Hc].
    change (String c r = String c (ws +:+ skip_spaces r)). by f_equal.
  - by exists ""%string.
Qed.

Lemma take_digits_split (s : string) :
  ∃ post, s = take_digits s +:+ post
          ∧ all_chars is_digit (take_digits s) = true
          ∧ starts_with_digit post = false.
Proof.
  induction s as [|c s (post & Hs & Hd & Hp)]; [by exists ""%string|].
  cbn [take_digits]. destruct (is_digit c) eqn:Hc.
  - exists post. split_and!; [|cbn; by rewrite Hc|done].
    change (String c s = String c (take_digits s +:+ post)). by f_equal.
  - exists (String c s). cbn. by rewrite Hc.
Qed.

Lemma skip_spaces_app (ws rest : string) :
  all_chars is_space ws = true →
  skip_spaces (ws +:+ rest) = skip_spaces rest.
Proof.
  induction ws as [|c ws IH]; [done|]. cbn [all_chars].
  intros [Hc Hws]%andb_true_iff. rewrite append_cons. cbn [skip_spaces].
  rewrite Hc. by apply IH.
Qed.

Lemma take_digits_app (ds post : string) :
  all_chars is_digit ds = true → starts_with_digit post = false →
  take_digits (ds +:+ post) = ds.
Proof.
  intros Hds Hp. induction ds as [|c ds IH].
  - rewrite append_nil. destruct post as [|c post]; [done|].
    cbn in *. by rewrite Hp.
  - cbn [all_chars] in Hds. apply andb_true_iff in Hds as [Hc Hds].
    rewrite append_cons. cbn [take_digits]. rewrite Hc. by rewrite IH.
Qed.

Lemma match_age_at_digits (s ds : string) :
  match_age_at s = Some ds → ds ≠ ""%string ∧ all_chars is_digit ds = true.
Proof.
  destruct s as [|a [|g [|e [|k r]]]]; try done. cbn [match_age_at].
  destruct (ci "a" "A" a && ci "g" "G" g && ci "e" "E" e && Ascii.eqb k ":");
    [|done].
  destruct (take_digits_split (skip_spaces r)) as (post & _ & Hd & _).
  destruct (take_digits (skip_spaces r)) as [|c ds'] eqn:Htd; [done|].
  by intros [= <-].
Qed.

Lemma pat_age_digits (text ds : string) :
  pat_age_compiled text = Some ds →
  ds ≠ ""%string ∧ all_chars is_digit ds = true.
Proof.
  induction text as [|c r IH]; cbn [pat_age_compiled].
  - destruct (match_age_at "") eqn:Hm; [|done].
    intros [= <-]. by apply match_age_at_digits in Hm.
  - destruct (match_age_at (String c r)) as [d|] eqn:Hm; [|done].
    intros [= <-]. by apply match_age_at_digits in Hm.
Qed.

(** X5. A match at the head of a text is exactly this: the label "Age:" in
    any letter case, then white space (none, blanks, line breaks), then a
    run of one or more digits that is not followed by another digit; the
    group is that run. *)
Theorem match_age_at_spec (s ds : string) :
  match_age_at s = Some ds ↔
    ∃ kw ws post,
      s = kw +:+ ws +:+ ds +:+ post
      ∧ is_label kw = true
      ∧ all_chars is_space ws = true
      ∧ ds ≠ ""%string
      ∧ all_chars is_digit ds = true
      ∧ starts_with_digit post = false.
Proof.
  split.
  - destruct s as [|a [|g [|e [|k r]]]]; try done. cbn [match_age_at].
    destruct (ci "a" "A" a && ci "g" "G" g && ci "e" "E" e && Ascii.eqb k ":")
      eqn:Hkw; [|done].
    destruct (skip_spaces_split r) as (ws & Hr & Hws).
    destruct (take_digits_split (skip_spaces r)) as (post & Hs & Hd & Hp).
    destruct (take_digits (skip_spaces r)) as [|c ds'] eqn:Htd; [done|].
    intros [= <-].
    exists (String a (String g (String e (String k ""))))%string, ws, post.
    split_and!; try done. cbn. rewrite Hr at 1. by rewrite Hs at 1.
  - intros (kw & ws & post & -> & Hkw & Hws & Hne & Hd & Hp).
    destruct kw as [|a [|g [|e [|k [|? ?]]]]]; try done.
    rewrite !append_cons, append_nil. cbn [match_age_at].
    unfold is_label in Hkw. rewrite Hkw.
    rewrite skip_spaces_app by done.
    assert (skip_spaces (ds +:+ post) = ds +:+ post) as ->.
    { destruct ds as [|c ds]; [done|]. cbn [all_chars] in Hd.
      apply andb_true_iff in Hd as [Hc _].
      rewrite append_cons. cbn [skip_spaces].
      by rewrite (digit_not_space c Hc). }
    rewrite take_digits_app by done. by destruct ds.
Qed.

Lemma match_age_at_spec_witness :
  match_age_at "aGe:
  34 years" = Some "34"%string.
Proof.
  apply match_age_at_spec.
  exists "aGe:"%string, (String "010" "  ")%string, " years"%string.
  split_and!; try reflexivity. discriminate.
Defined.

(** X6. [search] returns the group of the leftmost match: the text splits
    into a prefix and a rest that matches at its head, and no match starts
    inside the prefix. *)
Theorem pat_age_leftmost (text ds : string) :
  pat_age_compiled text = Some ds ↔
    ∃ pre s,
      text = pre +:+ s
      ∧ match_age_at s = Some ds
      ∧ ∀ pre1 s1,
          text = pre1 +:+ s1 →
          (String.length pre1 < String.length pre)%nat →
          match_age_at s1 = None.
Proof.
  split.
  - induction text as [|c r IH].
    + cbn. destruct (match_age_at "") eqn:Hm; [|done]. done.
    + cbn [pat_age_compiled].
      destruct (match_age_at (String c r)) as [d|] eqn:Hm.
      * intros [= ->]. exists ""%string, (String c r).
        split_and!; [done|done|]. intros pre1 s1 _ Hlt. cbn in Hlt. lia.
      * intros Hp. destruct (IH Hp) as (pre & s & -> & Hs & Hearly).
        exists (String c pre), s. split_and!; [done|done|].
        intros pre1 s1 Heq Hlt. destruct pre1 as [|c1 pre1].
        -- rewrite append_nil in Heq. by subst.
        -- rewrite !append_cons in Heq. cbn in Hlt. injection Heq as -> Heq.
           apply (Hearly pre1); [done|lia].
  - intros (pre & s & -> & Hs & Hearly). induction pre as [|c pre IH].
    + rewrite append_nil. destruct s as [|c s]; cbn [pat_age_compiled];
        by rewrite Hs.
    + rewrite append_cons. cbn [pat_age_compiled].
      rewrite (Hearly ""%string (String c (pre +:+ s)));
        [|done|cbn; lia].
      apply IH. intros pre1 s1 Heq Hlt.
      apply (Hearly (String c pre1)); [|cbn; lia].
      rewrite !append_cons. by rewrite Heq.
Qed.

Lemma pat_age_leftmost_witness :
  pat_age_compiled "Age: ? Age: 7 Age: 9" = Some "7"%string.
Proof.
  apply pat_age_leftmost. exists "Age: ? "%string, "Age: 7 Age: 9"%string.
  split_and!; [reflexivity|reflexivity|].
  intros pre1 s1 Heq Hlt.
  do 7 (destruct pre1 as [|? pre1];
        [rewrite append_nil in Heq; subst; reflexivity
        |rewrite append_cons in Heq; injection Heq as <- Heq; cbn in Hlt]).
  cbn in Hlt. lia.
Defined.

Lemma digit_val_nonneg (c : ascii) : is_digit c = true → 0 ≤ digit_val c ≤ 9.
Proof.
  unfold is_digit, digit_val. cbv zeta.
  rewrite andb_true_iff, !Nat.leb_le. lia.
Qed.

Lemma int_acc_digits (s : string) (acc : Z) :
  all_chars is_digit s = true → 0 ≤ acc →
  ∃ z, int_acc acc s = Some z ∧ acc ≤ z.
Proof.
  revert acc. induction s as [|c s IH]; intros acc Hd Hacc; cbn in *.
  - exists acc. split; [done|lia].
  - apply andb_true_iff in Hd as [Hc Hd]. rewrite Hc.
    pose proof (digit_val_nonneg c Hc).
    destruct (IH (10 * acc + digit_val c) Hd ltac:(lia)) as (z & Hz & Hle).
    exists z. split; [done|lia].
Qed.

(** X7. The cast raises on what the pattern matched only when the digits
    are more than the interpreter converts (4300, leading zeros counted).
    So the extractor gives NaN exactly when the pattern finds no match or
    the match is longer than that, and otherwise the decimal value of the
    matched digits, which is never negative. *)
Theorem extract_age_total (html : string) :
  (extract_age html = PNaN ↔
     pat_age_compiled html = None
     ∨ ∃ ds, pat_age_compiled html = Some ds
             ∧ (int_max_str_digits < String.length ds)%nat)
  ∧ ∀ ds, pat_age_compiled html = Some ds →
      (String.length ds ≤ int_max_str_digits)%nat →
      ∃ z, extract_age html = PInt z ∧ 0 ≤ z ∧ int_acc 0 ds = Some z.
Proof.
  assert (∀ ds, pat_age_compiled html = Some ds →
            (String.length ds ≤ int_max_str_digits)%nat →
            ∃ z, extract_age html = PInt z ∧ 0 ≤ z ∧ int_acc 0 ds = Some z)
    as Hsome.
  { intros ds Hp Hlen. destruct (pat_age_digits html ds Hp) as [Hne Hd].
    destruct (int_acc_digits ds 0 Hd ltac:(lia)) as (z & Hz & Hle).
    exists z. split_and!; [|done|done].
    unfold extract_age, extract_first. rewrite Hp. unfold py_int.
    destruct ds as [|c ds]; [done|].
    rewrite (proj2 (Nat.leb_le _ _) Hlen). by rewrite Hz. }
  split; [|done]. split.
  - intros Hx. destruct (pat_age_compiled html) as [ds|] eqn:Hp; [|by left].
    right. exists ds. split; [done|].
    destruct (decide (String.length ds ≤ int_max_str_digits)%nat) as [Hle|Hgt];
      [|lia].
    destruct (Hsome ds eq_refl Hle) as (z & Hz & _). congruence.
  - intros [Hp|(ds & Hp & Hlen)]; unfold extract_age, extract_first; rewrite Hp;
      [done|].
    unfold py_int. destruct ds as [|c ds]; [done|].
    by rewrite (proj2 (Nat.leb_gt _ _) Hlen).
Qed.

(** * Further properties of the workers *)

Lemma chunk_loop_labels (E : env) (c : Z) (federation : string) (ids : list nat)
    (series : list (option Z)) (rs : list (nat * pyval)) (tr : list event) :
  chunk_loop E c federation ids series = Ok (rs, tr) → rs.*1 = ids.
Proof.
  revert rs tr. induction ids as [|i ids IH]; intros rs tr; cbn [chunk_loop].
  - by intros [= <- <-].
  - destruct (series !! i) as [oa|]; [|done].
    destruct (chunk_loop E c federation ids series) as [[rs0 tr0]|] eqn:Hrest.
    2:{ by destruct oa as [a|]; [destruct (get_age_with_retry _ _ _)|]. }
    specialize (IH _ _ eq_refl).
    destruct oa as [a|]; [destruct (get_age_with_retry _ _ _)|];
      intros [= <- <-]; cbn; by rewrite IH.
Qed.

Lemma chunk_loop_gets (E : env) (c : Z) (federation : string) (ids : list nat)
    (series : list (option Z)) (rs : list (nat * pyval)) (tr : list event) :
  chunk_loop E c federation ids series = Ok (rs, tr) →
  (count_events is_get tr ≤ 3 * length ids)%nat
  ∧ ((∀ i, i ∈ ids → series !! i = Some None) → tr = []).
Proof.
  revert rs tr. induction ids as [|i ids IH]; intros rs tr; cbn [chunk_loop].
  - intros [= <- <-]. split; [cbv; lia|done].
  - destruct (series !! i) as [oa|] eqn:Hi; [|done].
    destruct (chunk_loop E c federation ids series) as [[rs0 tr0]|] eqn:Hrest.
    2:{ by destruct oa as [a|]; [destruct (get_age_with_retry _ _ _)|]. }
    destruct (IH _ _ eq_refl) as [IH1 IH2].
    destruct oa as [a|].
    + pose proof (retry_loop_counts (page E c i) (federation, a)
                    (py_range 1 (3 + 1))) as (_ & Hle & _).
      rewrite length_py_range in Hle.
      change (Z.to_nat (3 + 1 - 1)) with 3%nat in Hle.
      fold (get_age_with_retry (page E c i) (federation, a) 3) in Hle.
      destruct (get_age_with_retry (page E c i) (federation, a) 3) as [age tr1].
      intros [= <- <-]. cbn [snd length] in *. rewrite count_events_app.
      split; [lia|]. intros Hall.
      specialize (Hall i ltac:(by left)). congruence.
    + intros [= <- <-]. cbn [app length]. split; [lia|].
      intros Hall. apply IH2. intros i' Hi'. apply Hall. by right.
Qed.

(** X8. A worker that completes reports on the labels of its chunk, one
    result each, in the order of the chunk.  A row without an identifier
    gets NaN and no page is loaded for it: the worker loads at most three
    pages per label, and none at all when no row of the chunk has an
    identifier. *)
Theorem process_chunk_results (E : env) (c : Z) (j : nat) (federation : string)
    (ids : list nat) (series : list (option Z))
    (rs : list (nat * pyval)) (tr : list event) :
  _process_chunk_age E c j federation ids series = Ok (rs, tr) →
  rs.*1 = ids
  ∧ (∀ i v, (i, v) ∈ rs → series !! i = Some None → v = PNaN)
  ∧ (count_events is_get tr ≤ 3 * length ids)%nat
  ∧ ((∀ i, i ∈ ids → series !! i = Some None) → tr = []).
Proof.
  unfold _process_chunk_age. destruct (session_ok E c j); [|done]. intros H.
  destruct (chunk_loop_gets _ _ _ _ _ _ _ H) as [Hg Hnone].
  pose proof (chunk_loop_labels _ _ _ _ _ _ _ H) as Hl.
  apply chunk_loop_ok in H as [Hres _]. rewrite Forall_forall in Hres.
  split_and!; try done.
  intros i v Hin Hi. destruct (Hres _ Hin) as (_ & _ & Hid). cbn in Hid.
  destruct (decide (v = PNaN)) as [|Hne]; [done|].
  destruct (Hid Hne) as [a Ha]. congruence.
Qed.

Lemma process_chunk_results_witness :
  ∃ rs tr,
    _process_chunk_age scenario_env 1 0 "ifsc" [0; 2]%nat
      [Some 10; Some 11; None] = Ok (rs, tr)
    ∧ rs.*1 = [0; 2]%nat
    ∧ (∀ i v, (i, v) ∈ rs → [Some 10; Some 11; None] !! i = Some None →
         v = PNaN)
    ∧ (count_events is_get tr ≤ 3 * length [0; 2]%nat)%nat
    ∧ ((∀ i, i ∈ [0; 2]%nat → [Some 10; Some 11; None] !! i = Some None) →
       tr = []).
Proof.
  eexists _, _. split; [vm_compute; reflexivity|].
  eapply (process_chunk_results scenario_env 1 0 "ifsc" [0; 2]%nat
            [Some 10; Some 11; None]).
  vm_compute. reflexivity.
Defined.

Lemma chunk_loop_total (E : env) (c : Z) (federation : string) (ids : list nat)
    (series : list (option Z)) :
  (∀ i, i ∈ ids → (i < length series)%nat) →
  ∃ out, chunk_loop E c federation ids series = Ok out.
Proof.
  induction ids as [|i ids IH]; intros Hall; cbn [chunk_loop]; [by eexists|].
  destruct (lookup_lt_is_Some_2 series i) as [oa ->]; [apply Hall; by left|].
  destruct IH as [[rs0 tr0] ->]; [intros i' Hi'; apply Hall; by right|].
  destruct oa as [a|]; [destruct (get_age_with_retry _ _ _)|]; by eexists.
Qed.

Lemma chunk_loop_index_error (E : env) (c : Z) (federation : string)
    (ids : list nat) (series : list (option Z)) (i : nat) :
  i ∈ ids → (length series ≤ i)%nat →
  chunk_loop E c federation ids series = Raise IndexError.
Proof.
  intros Hin Hi. induction ids as [|i0 ids IH]; [by apply elem_of_nil in Hin|].
  cbn [chunk_loop]. destruct (series !! i0) as [oa|] eqn:Hi0; [|done].
  apply elem_of_cons in Hin as [->|Hin].
  { apply lookup_lt_Some in Hi0. lia. }
  rewrite (IH Hin).
  by destruct oa as [a|]; [destruct (get_age_with_retry _ _ _)|].
Qed.

(** X9. A worker raises in exactly two ways: its browser cannot be started,
    whatever the chunk; or a label of the chunk lies outside the series of
    identifiers (IndexError).  With a session and labels inside the series
    it completes, whatever the pages show. *)
Theorem process_chunk_errors (E : env) (c : Z) (j : nat) (federation : string)
    (ids : list nat) (series : list (option Z)) :
  (session_ok E c j = false →
   _process_chunk_age E c j federation ids series = Raise WebDriverException)
  ∧ (session_ok E c j = true →
     (∀ i, i ∈ ids → (i < length series)%nat) →
     ∃ out, _process_chunk_age E c j federation ids series = Ok out)
  ∧ (session_ok E c j = true →
     ∀ i, i ∈ ids → (length series ≤ i)%nat →
     _process_chunk_age E c j federation ids series = Raise IndexError).
Proof.
  unfold _process_chunk_age. split_and!.
  - by intros ->.
  - intros -> Hall. by apply chunk_loop_total.
  - intros -> i Hin Hi. by apply (chunk_loop_index_error _ _ _ _ _ i).
Qed.

Lemma process_chunk_errors_witness :
  _process_chunk_age scenario_env 1 0 "ifsc" [0; 5]%nat [Some 10; None]
  = Raise IndexError.
Proof.
  apply (proj2 (proj2 (process_chunk_errors scenario_env 1 0 "ifsc"
                         [0; 5]%nat [Some 10; None])) eq_refl 5%nat).
  - repeat constructor.
  - cbn. lia.
Defined.

(** * Further properties of the dispatch *)

Lemma collect_labels (futures : list future) (rs : list (nat * pyval))
    (tr : list event) :
  collect futures = Ok (rs, tr) →
  rs.*1 = concat (labels_of <$> futures) ∧ Forall completed futures.
Proof.
  revert rs tr. induction futures as [|[t r] futures IH]; intros rs tr;
    cbn [collect].
  - intros [= <- <-]. by split.
  - destruct r as [[rs1 tr1]|e]; [|done].
    destruct (collect futures) as [[rs2 tr2]|] eqn:Hrest; [|done].
    intros [= <- <-]. destruct (IH _ _ eq_refl) as [IH1 IH2]. split.
    + cbn. rewrite fmap_app. by rewrite IH1.
    + constructor; [by eexists|done].
Qed.

Lemma collect_total (futures : list future) :
  Forall completed futures → ∃ out, collect futures = Ok out.
Proof.
  induction 1 as [|[t r] futures [out Hout] _ [[rs2 tr2] IH]]; cbn [collect].
  - by eexists.
  - cbn in Hout. subst r. destruct out as [rs1 tr1]. rewrite IH. by eexists.
Qed.

Lemma collect_raise (futures : list future) (t : nat) (e : exn) :
  (t, Raise e) ∈ futures → ∃ e', collect futures = Raise e'.
Proof.
  induction futures as [|[t0 r] futures IH]; intros Hin;
    [by apply elem_of_nil in Hin|].
  cbn [collect]. destruct r as [[rs1 tr1]|e0]; [|by eexists].
  apply elem_of_cons in Hin as [[=]|Hin].
  destruct (IH Hin) as [e' ->]. by eexists.
Qed.

Lemma concat_labels_Permutation (fs fs' : list future) :
  fs ≡ₚ fs' → concat (labels_of <$> fs) ≡ₚ concat (labels_of <$> fs').
Proof.
  induction 1 as [|x l l' _ IH|x y l|l l' l'' _ IH1 _ IH2]; cbn.
  - done.
  - by rewrite IH.
  - rewrite !app_assoc. f_equiv. apply Permutation_app_comm.
  - by rewrite IH1.
Qed.

Lemma concat_labels_imap (g : nat → list nat → future) (chunks : list (list nat)) :
  (∀ j ch, chunks !! j = Some ch → completed (g j ch) → labels_of (g j ch) = ch) →
  Forall completed (imap g chunks) →
  concat (labels_of <$> imap g chunks) = concat chunks.
Proof.
  revert g. induction chunks as [|ch chunks IH]; intros g Hg Hall; [done|].
  cbn in Hall |- *. apply Forall_cons in Hall as [H0 Hall].
  rewrite (Hg 0%nat ch) by done. f_equal. apply IH; [|done].
  intros j ch' Hj. by apply (Hg (S j)).
Qed.

Lemma dispatch_results_labels (E : env) (c : Z) (federation : string)
    (n_workers : Z) (chunks : list (list nat)) (series : list (option Z))
    (rs : list (nat * pyval)) (tr : list event) :
  dispatch E c federation n_workers chunks series = Ok (rs, tr) →
  rs.*1 ≡ₚ concat chunks.
Proof.
  unfold dispatch. destruct (n_workers <=? 0); [done|].
  destruct (max_pool_workers <=? n_workers); [done|]. intros Hc.
  apply collect_labels in Hc as [-> Hall].
  unfold as_completed in *.
  rewrite (concat_labels_Permutation _ _ (merge_sort_Permutation _ _)).
  rewrite merge_sort_Permutation in Hall.
  rewrite concat_labels_imap; [done| |done].
  intros j ch _ [[rs1 tr1] Hout]. unfold labels_of. cbn [snd] in *.
  rewrite Hout. unfold _process_chunk_age in Hout.
  destruct (session_ok E c j); [|done]. by apply chunk_loop_labels in Hout.
Qed.

(** X10. A dispatch that completes returns exactly one result for every
    label handed out: the labels of the results are the labels of the
    chunks, rearranged by the order in which the chunks completed. *)
Theorem dispatch_labels (E : env) (c : Z) (federation : string) (n_workers : Z)
    (chunks : list (list nat)) (series : list (option Z))
    (rs : list (nat * pyval)) (tr : list event) :
  dispatch E c federation n_workers chunks series = Ok (rs, tr) →
  rs.*1 ≡ₚ concat chunks.
Proof. apply dispatch_results_labels. Qed.

Lemma dispatch_labels_witness :
  ∃ rs tr,
    dispatch scenario_env 1 "ifsc" 10 [[1%nat]; [2%nat]]
      (ath_id <$> scenario_frame) = Ok (rs, tr)
    ∧ rs.*1 ≡ₚ concat [[1%nat]; [2%nat]].
Proof.
  eexists _, _. split; [vm_compute; reflexivity|].
  eapply (dispatch_labels scenario_env 1 "ifsc" 10 [[1%nat]; [2%nat]]
            (ath_id <$> scenario_frame)).
  vm_compute. reflexivity.
Defined.

Lemma dispatch_total (E : env) (c : Z) (federation : string)
    (n_workers : Z) (chunks : list (list nat)) (series : list (option Z)) :
  0 < n_workers < max_pool_workers →
  (∀ j, (j < length chunks)%nat → session_ok E c j = true) →
  (∀ i, i ∈ concat chunks → (i < length series)%nat) →
  ∃ out, dispatch E c federation n_workers chunks series = Ok out.
Proof.
  unfold dispatch. intros Hw Hs Hr.
  rewrite (proj2 (Z.leb_gt n_workers 0)) by lia.
  rewrite (proj2 (Z.leb_gt max_pool_workers n_workers)) by lia.
  apply collect_total. unfold as_completed.
  rewrite merge_sort_Permutation. apply Forall_forall. intros fu Hin.
  apply elem_of_lookup_imap in Hin as (j & ch & -> & Hch).
  unfold completed, _process_chunk_age. cbn [snd].
  rewrite (Hs j) by by apply lookup_lt_Some in Hch.
  apply chunk_loop_total. intros i Hi. apply Hr.
  apply (elem_of_concat i chunks ch); [|done].
  by apply list_elem_of_lookup_2 in Hch.
Qed.

Lemma dispatch_raises (E : env) (c : Z) (federation : string)
    (n_workers : Z) (chunks : list (list nat)) (series : list (option Z))
    (j : nat) :
  (j < length chunks)%nat → session_ok E c j = false →
  ∃ e, dispatch E c federation n_workers chunks series = Raise e.
Proof.
  unfold dispatch. intros Hj Hs. destruct (n_workers <=? 0); [by eexists|].
  destruct (max_pool_workers <=? n_workers); [by eexists|].
  destruct (lookup_lt_is_Some_2 chunks j Hj) as [ch Hch].
  apply (collect_raise _ (finish E c j) WebDriverException).
  unfold as_completed. rewrite merge_sort_Permutation.
  apply elem_of_lookup_imap. exists j, ch. split; [|done].
  unfold _process_chunk_age. by rewrite Hs.
Qed.

(** X11. A dispatch completes when the worker count is one the pool
    accepts (positive and below 2^31 - 1), every browser starts and the
    labels lie inside the series; from 2^31 - 1 workers on the pool raises
    OverflowError.  One worker whose browser cannot be started makes the
    whole dispatch raise: the results of the other chunks are not
    returned. *)
Theorem dispatch_all_or_nothing (E : env) (c : Z) (federation : string)
    (n_workers : Z) (chunks : list (list nat)) (series : list (option Z)) :
  (0 < n_workers < max_pool_workers →
   (∀ j, (j < length chunks)%nat → session_ok E c j = true) →
   (∀ i, i ∈ concat chunks → (i < length series)%nat) →
   ∃ out, dispatch E c federation n_workers chunks series = Ok out)
  ∧ (max_pool_workers ≤ n_workers →
     dispatch E c federation n_workers chunks series = Raise OverflowError)
  ∧ (∀ j, (j < length chunks)%nat → session_ok E c j = false →
     ∃ e, dispatch E c federation n_workers chunks series = Raise e).
Proof.
  split_and!; [apply dispatch_total| |intros j; apply dispatch_raises].
  intros Hw. unfold dispatch.
  assert (0 < max_pool_workers) as Hpos by done.
  rewrite (proj2 (Z.leb_gt n_workers 0)) by lia.
  by rewrite (proj2 (Z.leb_le max_pool_workers n_workers)) by lia.
Qed.

Lemma dispatch_all_or_nothing_witness :
  ∃ e,
    dispatch
      {| page := λ _ _ _, Source "Age: 34";
         session_ok := λ _ j, negb (j =? 1)%nat;
         finish := λ _ j, j |}
      1 "ifsc" 2 [[0%nat]; [1%nat]] [Some 10; Some 11] = Raise e.
Proof.
  apply (proj2 (proj2 (dispatch_all_or_nothing
                  {| page := λ _ _ _, Source "Age: 34";
                     session_ok := λ _ j, negb (j =? 1)%nat;
                     finish := λ _ j, j |}
                  1 "ifsc" 2 [[0%nat]; [1%nat]] [Some 10; Some 11])) 1%nat).
  - cbn. lia.
  - reflexivity.
Defined.

(** * Further properties of merge and purge *)

Lemma result_for_None (j : nat) (rs : list (nat * pyval)) :
  j ∉ rs.*1 → result_for j rs = None.
Proof.
  induction rs as [|[i v] rs IH]; [done|]. cbn. intros Hj.
  apply not_elem_of_cons in Hj as [Hne Hj].
  rewrite decide_False by done. by apply IH.
Qed.

Lemma result_for_elem (j : nat) (v : pyval) (rs : list (nat * pyval)) :
  NoDup rs.*1 → (j, v) ∈ rs ↔ result_for j rs = Some v.
Proof.
  induction rs as [|[i w] rs IH]; intros Hnd.
  - cbn. split; [|done]. intros H. by apply elem_of_nil in H.
  - cbn in Hnd. apply NoDup_cons in Hnd as [Hi Hnd]. cbn [result_for].
    destruct (decide (i = j)) as [->|Hne].
    + split.
      * intros [[= ->]|Hin]%elem_of_cons; [done|].
        destruct Hi. apply list_elem_of_fmap. by exists (j, v).
      * intros [= ->]. by left.
    + rewrite <- (IH Hnd). split.
      * intros [[= -> ->]|Hin]%elem_of_cons; done.
      * intros Hin. by right.
Qed.

Lemma length_writes (rs : list (nat * pyval)) (f : frame) :
  length (writes f rs) = length f.
Proof.
  revert f. induction rs as [|p rs IH]; intros f; [done|].
  unfold writes. cbn [foldl]. fold (writes (write_one f p) rs). rewrite IH.
  unfold write_one. destruct (is_deleted p); [done|]. apply length_alter.
Qed.

Lemma writes_lookup_exact (rs : list (nat * pyval)) (f : frame) (j : nat) :
  NoDup rs.*1 → writes f rs !! j = written_row rs j <$> f !! j.
Proof.
  revert f. induction rs as [|[i v] rs IH]; intros f Hnd.
  - cbn. by destruct (f !! j).
  - cbn in Hnd. apply NoDup_cons in Hnd as [Hi Hnd].
    unfold writes. cbn [foldl]. fold (writes (write_one f (i, v)) rs).
    rewrite IH by done. unfold written_row at 2. cbn [result_for].
    unfold write_one, is_deleted. cbn [fst snd].
    destruct (decide (i = j)) as [->|Hne].
    + unfold written_row. rewrite (result_for_None j rs Hi).
      destruct (py_eq v DELETED); [by destruct (f !! j)|].
      rewrite list_lookup_alter_eq. by destruct (f !! j).
    + fold (written_row rs j).
      destruct (py_eq v DELETED); [done|].
      by rewrite list_lookup_alter_ne.
Qed.

Lemma writes_imap (rs : list (nat * pyval)) (f : frame) :
  NoDup rs.*1 → writes f rs = imap (written_row rs) f.
Proof.
  intros Hnd. apply list_eq. intros j.
  by rewrite writes_lookup_exact, list_lookup_imap.
Qed.

Lemma drop_index_imap (rs : list (nat * pyval)) (k : nat) (f : frame) :
  NoDup rs.*1 →
  drop_index (deleted_ids rs) k (imap (λ j, written_row rs (k + j)) f)
  = rowwise rs k f.
Proof.
  intros Hnd. revert k. induction f as [|r f IH]; intros k; [done|].
  cbn [imap drop_index rowwise]. rewrite Nat.add_0_r.
  assert (imap ((λ j, written_row rs (k + j)) ∘ S) f
          = imap (λ j, written_row rs (S k + j)) f) as ->.
  { apply imap_ext. intros j x _. cbn. f_equal. lia. }
  rewrite IH. unfold merged_row, written_row.
  destruct (result_for k rs) as [v|] eqn:Hk.
  - apply (result_for_elem k v rs Hnd) in Hk.
    destruct (py_eq v DELETED) eqn:Hv.
    + apply py_eq_DELETED in Hv as ->.
      by rewrite bool_decide_eq_true_2 by by apply elem_of_deleted_ids.
    + rewrite bool_decide_eq_false_2; [done|].
      rewrite elem_of_deleted_ids. intros Hd.
      apply (result_for_elem k _ rs Hnd) in Hd, Hk.
      rewrite Hd in Hk. injection Hk as <-.
      by rewrite (proj2 (py_eq_DELETED DELETED)) in Hv.
  - rewrite bool_decide_eq_false_2; [done|].
    rewrite elem_of_deleted_ids. intros Hd.
    apply (result_for_elem k _ rs Hnd) in Hd. congruence.
Qed.

Lemma merge_purge_rowwise0 (f : frame) (rs : list (nat * pyval)) :
  NoDup rs.*1 → merge_purge f rs = rowwise rs 0 f.
Proof.
  intros Hnd. rewrite merge_purge_eq, writes_imap by done.
  by rewrite <- drop_index_imap.
Qed.

(** X12. For results with distinct labels inside the frame, the merge loop
    followed by the batch removal is one pass over the rows in which every
    row is decided by the result for its own label: dropped for the
    sentinel, today's cell set for any other result, left alone without a
    result. *)
Theorem merge_purge_rowwise (f : frame) (rs : list (nat * pyval)) :
  NoDup rs.*1 → Forall (λ p, (p.1 < length f)%nat) rs →
  merge_purge f rs = rowwise rs 0 f.
Proof.
  intros Hnd _. by apply merge_purge_rowwise0.
Qed.

Lemma merge_purge_rowwise_witness :
  merge_purge scenario_frame [(2%nat, PInt 41); (1%nat, DELETED)]
  = rowwise [(2%nat, PInt 41); (1%nat, DELETED)] 0 scenario_frame.
Proof.
  apply merge_purge_rowwise.
  - apply (bool_decide_unpack _). vm_compute. exact I.
  - repeat constructor; cbn; lia.
Defined.

Lemma written_row_idem (rs : list (nat * pyval)) (j : nat) (r : row) :
  written_row rs j (written_row rs j r) = written_row rs j r.
Proof.
  unfold written_row. destruct (result_for j rs) as [v|]; [|done].
  by destruct (py_eq v DELETED).
Qed.

Lemma deleted_ids_nil (rs : list (nat * pyval)) :
  (∀ p, p ∈ rs → p.2 ≠ DELETED) → deleted_ids rs = [].
Proof.
  intros Hall. destruct (deleted_ids rs) as [|i ids] eqn:Hd; [done|].
  assert (i ∈ deleted_ids rs) as Hin by (rewrite Hd; by left).
  apply elem_of_deleted_ids in Hin. by destruct (Hall _ Hin).
Qed.

(** X13. Merging the same results a second time changes nothing, as long
    as none of them is the sentinel (labels distinct and inside the
    frame). *)
Theorem merge_idempotent (f : frame) (rs : list (nat * pyval)) :
  NoDup rs.*1 → Forall (λ p, (p.1 < length f)%nat) rs →
  (∀ p, p ∈ rs → p.2 ≠ DELETED) →
  merge_purge (merge_purge f rs) rs = merge_purge f rs.
Proof.
  intros Hnd _ Hall. rewrite !merge_purge_eq, (deleted_ids_nil rs Hall).
  rewrite !drop_index_nil, !writes_imap by done.
  apply list_eq. intros j. rewrite !list_lookup_imap.
  destruct (f !! j) as [r|]; [|done]. cbn. by rewrite written_row_idem.
Qed.

Lemma merge_idempotent_witness :
  merge_purge (merge_purge scenario_frame [(2%nat, PInt 41); (0%nat, PNaN)])
    [(2%nat, PInt 41); (0%nat, PNaN)]
  = merge_purge scenario_frame [(2%nat, PInt 41); (0%nat, PNaN)].
Proof.
  apply merge_idempotent.
  - apply (bool_decide_unpack _). vm_compute. exact I.
  - repeat constructor; cbn; lia.
  - intros p Hp.
    repeat (apply elem_of_cons in Hp as [->|Hp]; [discriminate|]).
    by apply elem_of_nil in Hp.
Defined.

Lemma deleted_ids_cons (p : nat * pyval) (rs : list (nat * pyval)) :
  deleted_ids (p :: rs)
  = if is_deleted p then p.1 :: deleted_ids rs else deleted_ids rs.
Proof.
  unfold deleted_ids. rewrite filter_cons.
  destruct (is_deleted p); [by rewrite decide_True|by rewrite decide_False].
Qed.

Lemma deleted_ids_subseteq (rs : list (nat * pyval)) (i : nat) :
  i ∈ deleted_ids rs → i ∈ rs.*1.
Proof.
  rewrite elem_of_deleted_ids. intros Hin.
  apply list_elem_of_fmap. by exists (i, DELETED).
Qed.

Lemma deleted_ids_NoDup (rs : list (nat * pyval)) :
  NoDup rs.*1 → NoDup (deleted_ids rs).
Proof.
  induction rs as [|p rs IH]; intros Hnd; [constructor|].
  cbn in Hnd. apply NoDup_cons in Hnd as [Hp Hnd]. rewrite deleted_ids_cons.
  destruct (is_deleted p); [|by apply IH].
  constructor; [|by apply IH]. intros Hin. by apply Hp, deleted_ids_subseteq.
Qed.

Lemma count_range_split (D : list nat) (k n : nat) :
  NoDup D →
  length (filter (λ d, (k ≤ d < k + S n)%nat) D)
  = ((if bool_decide (k ∈ D) then 1 else 0)
     + length (filter (λ d, (S k ≤ d < S k + n)%nat) D))%nat.
Proof.
  induction D as [|d D IH]; intros Hnd; [done|].
  apply NoDup_cons in Hnd as [Hd Hnd]. specialize (IH Hnd).
  rewrite !filter_cons. destruct (decide (d = k)) as [->|Hne].
  - rewrite bool_decide_eq_true_2 by by left.
    rewrite bool_decide_eq_false_2 in IH by done.
    rewrite decide_True by lia. rewrite decide_False by lia.
    cbn [length]. lia.
  - assert (bool_decide (k ∈ d :: D) = bool_decide (k ∈ D)) as ->.
    { apply bool_decide_ext. rewrite elem_of_cons.
      split; [intros [?|?]; [congruence|done]|by right]. }
    destruct (decide (k ≤ d < k + S n)%nat).
    + rewrite decide_True by lia. cbn [length]. lia.
    + rewrite decide_False by lia. done.
Qed.

Lemma length_drop_index (D : list nat) (k : nat) (f : frame) :
  NoDup D →
  (length (drop_index D k f)
   + length (filter (λ d, (k ≤ d < k + length f)%nat) D))%nat
  = length f.
Proof.
  intros Hnd. revert k. induction f as [|r f IH]; intros k.
  - cbn [drop_index length]. rewrite Nat.add_0_r.
    assert (filter (λ d, (k ≤ d < k)%nat) D = []) as ->; [|done].
    clear. induction D as [|d D IH]; [done|].
    rewrite filter_cons. by rewrite decide_False by lia.
  - cbn [drop_index length]. rewrite count_range_split by done.
    specialize (IH (S k)).
    destruct (bool_decide (k ∈ D)); cbn [length]; lia.
Qed.

Lemma filter_in_range (D : list nat) (n : nat) :
  (∀ d, d ∈ D → (d < n)%nat) →
  filter (λ d, (0 ≤ d < 0 + n)%nat) D = D.
Proof.
  induction D as [|d D IH]; intros Hlt; [done|].
  rewrite filter_cons, decide_True.
  - f_equal. apply IH. intros d' Hd'. apply Hlt. by right.
  - split; [lia|]. apply Hlt. by left.
Qed.

(** X14. The store shrinks by exactly the number of results that are the
    sentinel (labels distinct and inside the frame): this is the number the
    run reports as removed. *)
Theorem merge_purge_length (f : frame) (rs : list (nat * pyval)) :
  NoDup rs.*1 → Forall (λ p, (p.1 < length f)%nat) rs →
  (length (merge_purge f rs) + length (deleted_ids rs))%nat = length f.
Proof.
  intros Hnd Hin. rewrite merge_purge_eq.
  pose proof (length_drop_index (deleted_ids rs) 0 (writes f rs)
                (deleted_ids_NoDup rs Hnd)) as H.
  rewrite length_writes in H.
  rewrite filter_in_range in H; [done|].
  rewrite Forall_forall in Hin.
  intros d Hd. apply elem_of_deleted_ids in Hd. by apply (Hin (d, DELETED)).
Qed.

Lemma merge_purge_length_witness :
  (length (merge_purge scenario_frame [(2%nat, PInt 41); (1%nat, DELETED)])
   + length (deleted_ids [(2%nat, PInt 41); (1%nat, DELETED)]))%nat
  = length scenario_frame.
Proof.
  apply merge_purge_length.
  - apply (bool_decide_unpack _). vm_compute. exact I.
  - repeat constructor; cbn; lia.
Defined.

(** * Further properties of the cycles *)

Lemma scrape_labels (E : env) (federation : string) (n_workers : Z) (c : Z)
    (f : frame) (idx_list : list nat) (chunks : list (list nat))
    (rs : list (nat * pyval)) (tr : list event) :
  scrape E federation n_workers c f idx_list = Ok (chunks, (rs, tr)) →
  rs.*1 ≡ₚ idx_list.
Proof.
  unfold scrape.
  destruct (make_chunks idx_list _) as [chs|] eqn:Hm; [|done].
  apply make_chunks_concat in Hm.
  destruct (dispatch E c federation n_workers chs (ath_id <$> f))
    as [[rs0 tr0]|] eqn:Hd; [|done].
  intros [= <- <- <-]. apply dispatch_results_labels in Hd. by rewrite Hm in Hd.
Qed.

Lemma elem_of_rowwise (rs : list (nat * pyval)) (k : nat) (f : frame) (r' : row) :
  r' ∈ rowwise rs k f ↔
    ∃ j r, f !! j = Some r ∧ merged_row rs (k + j) r = Some r'.
Proof.
  revert k. induction f as [|r0 f IH]; intros k; cbn [rowwise].
  - rewrite elem_of_nil. split; [done|]. by intros (j & r & ? & _).
  - assert (r' ∈ rowwise rs (S k) f ↔
            ∃ j r, (r0 :: f) !! S j = Some r ∧ merged_row rs (k + S j) r = Some r')
      as Htail.
    { rewrite IH. split; intros (j & r & Hl & Hm); exists j, r;
        (split; [done|]); by replace (k + S j)%nat with (S k + j)%nat in * by lia. }
    destruct (merged_row rs k r0) as [r1|] eqn:Hm0.
    + rewrite elem_of_cons, Htail. split.
      * intros [->|(j & r & Hl & Hm)].
        -- exists 0%nat, r0. by rewrite Nat.add_0_r.
        -- by exists (S j), r.
      * intros (j & r & Hl & Hm). destruct j as [|j].
        -- left. cbn in Hl. injection Hl as <-.
           rewrite Nat.add_0_r in Hm. congruence.
        -- right. by exists j, r.
    + rewrite Htail. split.
      * intros (j & r & Hl & Hm). by exists (S j), r.
      * intros (j & r & Hl & Hm). destruct j as [|j].
        -- cbn in Hl. injection Hl as <-.
           rewrite Nat.add_0_r in Hm. congruence.
        -- by exists j, r.
Qed.

Lemma set_today_same (r : row) : set_today (today r) r = r.
Proof. by destruct r. Qed.

(** After a cycle whose results cover the backlog, the rows that are still
    due are the rows the cycle could not resolve, as they were. *)
Lemma merge_purge_still_due (f : frame) (rs : list (nat * pyval)) (r' : row) :
  rs.*1 ≡ₚ backlog f →
  (r' ∈ merge_purge f rs ∧ mask r' = true) ↔
    ∃ i, (i, PNaN) ∈ rs ∧ f !! i = Some r'.
Proof.
  intros Hperm.
  assert (NoDup rs.*1) as Hnd by (rewrite Hperm; apply NoDup_index_where).
  rewrite merge_purge_rowwise0 by done.
  rewrite elem_of_rowwise. cbn [Nat.add]. split.
  - intros [(i & r & Hl & Hm) Hmask]. exists i. unfold merged_row in Hm.
    destruct (result_for i rs) as [v|] eqn:Hres.
    + destruct (py_eq v DELETED); [done|]. injection Hm as <-.
      assert (v = PNaN) as ->.
      { unfold mask in Hmask. apply andb_true_iff in Hmask as [_ Hna].
        cbn in Hna. by destruct v. }
      apply (result_for_elem i PNaN rs Hnd) in Hres. split; [done|].
      assert (i ∈ backlog f) as Hb.
      { rewrite <- Hperm. apply list_elem_of_fmap. by exists (i, PNaN). }
      apply elem_of_backlog in Hb as (r0 & Hl0 & Hm0).
      assert (r0 = r) as -> by congruence.
      apply mask_spec in Hm0 as [Ht _]. rewrite <- Ht. by rewrite set_today_same.
    + injection Hm as <-.
      assert (i ∈ backlog f) as Hb by (apply elem_of_backlog; eauto).
      rewrite <- Hperm in Hb.
      apply list_elem_of_fmap in Hb as ([i' v] & -> & Hin).
      apply (result_for_elem _ _ rs Hnd) in Hin. cbn in Hres. congruence.
  - intros (i & Hin & Hl).
    assert (i ∈ backlog f) as Hb.
    { rewrite <- Hperm. apply list_elem_of_fmap. by exists (i, PNaN). }
    apply elem_of_backlog in Hb as (r0 & Hl0 & Hm0).
    assert (r0 = r') as -> by congruence. split; [|done].
    exists i, r'. split; [done|]. unfold merged_row.
    apply (result_for_elem i PNaN rs Hnd) in Hin. rewrite Hin. cbn.
    apply mask_spec in Hm0 as [Ht _]. rewrite <- Ht. by rewrite set_today_same.
Qed.

(** X15. In every completed cycle of a run, the rows of the saved frame
    that will be in the next backlog are exactly the rows for which the
    cycle returned NaN, and they are saved as they were before the cycle:
    a row that got an age, or was removed, is never scraped again. *)
Theorem next_backlog_unresolved (E : env) (federation : string)
    (n_workers : Z) (f : frame) (rep : report) (r' : row) :
  rep ∈ (run_scraping_cycle E federation n_workers f).1.1 →
  (r' ∈ r_saved rep ∧ mask r' = true) ↔
    ∃ i, (i, PNaN) ∈ r_results rep ∧ r_before rep !! i = Some r'.
Proof.
  intros Hin. unfold run_scraping_cycle in Hin.
  pose proof (run_cycles_chain E federation n_workers (py_range 1 6) f) as H.
  cbv zeta in H. destruct H as (Hch & _ & _).
  destruct (chain_report _ _ _ _ _ _ _ Hch Hin) as (Hb & _ & Hs & Hsv).
  rewrite Hsv. apply merge_purge_still_due.
  apply scrape_labels in Hs. by rewrite <- Hb.
Qed.

Lemma next_backlog_unresolved_witness :
  ∃ rep,
    (run_scraping_cycle
       {| page := λ _ ridx _, match ridx with
                              | 1%nat => GetFails
                              | _ => Source "Age: 41"
                              end;
          session_ok := λ _ _, true;
          finish := λ _ j, j |}
       "ifsc" 10 scenario_frame).1.1 !! 0%nat = Some rep
    ∧ ((Row (Some 11) (Some 20) [PInt 19] PNaN ∈ r_saved rep
        ∧ mask (Row (Some 11) (Some 20) [PInt 19] PNaN) = true) ↔
       ∃ i, (i, PNaN) ∈ r_results rep
            ∧ r_before rep !! i = Some (Row (Some 11) (Some 20) [PInt 19] PNaN)).
Proof.
  eexists. split; [vm_compute; reflexivity|].
  eapply (next_backlog_unresolved
            {| page := λ _ ridx _, match ridx with
                                   | 1%nat => GetFails
                                   | _ => Source "Age: 41"
                                   end;
               session_ok := λ _ _, true;
               finish := λ _ j, j |}
            "ifsc" 10 scenario_frame).
  vm_compute. repeat constructor.
Defined.

Lemma scrape_total (E : env) (federation : string) (n_workers : Z) (c : Z)
    (f : frame) :
  backlog f ≠ [] → 0 < n_workers < max_pool_workers →
  (∀ j, session_ok E c j = true) →
  ∃ out, scrape E federation n_workers c f (backlog f) = Ok out.
Proof.
  intros Hne Hw Hs. unfold scrape.
  assert (0 < length (backlog f))%nat as Hl
    by (destruct (backlog f); [done|cbn; lia]).
  assert (n_workers ≤ 2 ^ 53) as Hb by (unfold max_pool_workers in Hw; lia).
  pose proof (chunk_size_pos (length (backlog f)) n_workers Hl Hb) as Hsize.
  rewrite make_chunks_eq by done.
  set (chunks := (λ k, take _ (drop k (backlog f))) <$> _).
  assert (concat chunks = backlog f) as Hcat.
  { apply (make_chunks_concat _ (chunk_size (length (backlog f)) n_workers)).
    by rewrite make_chunks_eq. }
  destruct (dispatch_total E c federation n_workers chunks (ath_id <$> f))
    as [[rs tr] ->]; [done|by intros| |by eexists].
  intros i Hi. rewrite Hcat in Hi. rewrite length_fmap. by apply backlog_lt.
Qed.

(** X16. With at least one worker, fewer than the 2^31 - 1 at which the
    pool refuses its size, and browsers that always start, a run never ends
    on an exception, whatever the pages show: it ends because nothing is
    left to scrape or because the five cycles are spent. *)
Theorem run_never_crashes (E : env) (federation : string) (n_workers : Z)
    (f : frame) :
  1 ≤ n_workers < max_pool_workers → (∀ c j, session_ok E c j = true) →
  (run_scraping_cycle E federation n_workers f).1.2 = BudgetSpent
  ∨ ∃ c, (run_scraping_cycle E federation n_workers f).1.2 = AllCaptured c.
Proof.
  intros Hw Hs. unfold run_scraping_cycle.
  pose proof (run_cycles_chain E federation n_workers (py_range 1 6) f) as H.
  cbv zeta in H. destruct H as (_ & _ & H).
  destruct ((run_cycles E federation n_workers (py_range 1 6) f).1.2)
    as [c| |c e]; [right; by exists c|by left|].
  destruct H as (_ & Hne & Hraise).
  destruct (scrape_total E federation n_workers c _ Hne) as [out Hout];
    [lia|by intros|]. congruence.
Qed.

Lemma run_never_crashes_witness :
  (run_scraping_cycle scenario_env "ifsc" 10 scenario_frame).1.2 = BudgetSpent
  ∨ ∃ c, (run_scraping_cycle scenario_env "ifsc" 10 scenario_frame).1.2
         = AllCaptured c.
Proof.
  apply (run_never_crashes scenario_env "ifsc" 10 scenario_frame);
    [by vm_compute|done].
Defined.

(** The guard of line 131 is what keeps the chunking from an empty
    backlog, where the slice width is 0 and [range] rejects the step. *)
Lemma make_chunks_empty (n_workers : Z) :
  make_chunks [] (chunk_size 0 n_workers) = Raise ValueError.
Proof.
  assert (chunk_size 0 n_workers = 0%nat) as ->; [|done].
  unfold chunk_size. cbv zeta. rewrite Z.mul_0_l.
  by rewrite (proj2 (Z.leb_le 0 (Z.max 1 n_workers))) by lia.
Qed.

(** X17. One browser that cannot be started in the first cycle ends the run
    there, whichever chunk it was for: no result of the cycle is merged,
    nothing is saved, and the frame is the loaded one. *)
Theorem run_aborts_on_session_failure (E : env) (federation : string)
    (n_workers : Z) (f : frame) (chunks : list (list nat)) (j : nat) :
  make_chunks (backlog f) (chunk_size (length (backlog f)) n_workers) = Ok chunks →
  (j < length chunks)%nat → session_ok E 1 j = false →
  ∃ e, run_scraping_cycle E federation n_workers f = ([], Crashed 1 e, f).
Proof.
  intros Hm Hj Hs. unfold run_scraping_cycle. rewrite py_range_cons by lia.
  cbn [run_cycles]. destruct (backlog f) as [|i idx] eqn:Hb.
  { cbn [length] in Hm. by rewrite make_chunks_empty in Hm. }
  unfold scrape. rewrite Hm.
  destruct (dispatch_raises E 1 federation n_workers chunks (ath_id <$> f)
              j Hj Hs) as [e ->].
  by exists e.
Qed.

Lemma run_aborts_on_session_failure_witness :
  ∃ e,
    run_scraping_cycle
      {| page := λ _ _ _, Source "Age: 41";
         session_ok := λ _ j, negb (j =? 1)%nat;
         finish := λ _ j, j |}
      "ifsc" 10 scenario_frame
    = ([], Crashed 1 e, scenario_frame).
Proof.
  apply (run_aborts_on_session_failure
           {| page := λ _ _ _, Source "Age: 41";
              session_ok := λ _ j, negb (j =? 1)%nat;
              finish := λ _ j, j |}
           "ifsc" 10 scenario_frame [[1%nat]; [2%nat]] 1).
  - vm_compute. reflexivity.
  - cbn. lia.
  - reflexivity.
Defined.

(** X18. A run that stopped because nothing was left to scrape leaves a
    frame on which another run, with any workers and any pages, performs no
    cycle at all and keeps the frame. *)
Theorem run_again_is_noop (E E' : env) (federation federation' : string)
    (n_workers n_workers' : Z) (f : frame) (c : Z) :
  (run_scraping_cycle E federation n_workers f).1.2 = AllCaptured c →
  run_scraping_cycle E' federation' n_workers'
    (run_scraping_cycle E federation n_workers f).2
  = ([], AllCaptured 1, (run_scraping_cycle E federation n_workers f).2).
Proof.
  intros Hstop. unfold run_scraping_cycle in *.
  pose proof (run_cycles_chain E federation n_workers (py_range 1 6) f) as H.
  cbv zeta in H. destruct H as (_ & _ & H). rewrite Hstop in H.
  destruct H as [_ Hb].
  rewrite (py_range_cons 1 6) at 1 by lia. cbn [run_cycles]. by rewrite Hb.
Qed.

Lemma run_again_is_noop_witness :
  run_scraping_cycle scenario_env "dav" 3
    (run_scraping_cycle scenario_env "ifsc" 10 scenario_frame).2
  = ([], AllCaptured 1,
     (run_scraping_cycle scenario_env "ifsc" 10 scenario_frame).2).
Proof.
  apply (run_again_is_noop scenario_env scenario_env "ifsc" "dav" 10 3
           scenario_frame 2).
  vm_compute. reflexivity.
Defined.

(** * Further properties of the chunking *)

Lemma singleton_slices (l : list nat) :
  (λ k, take 1 (drop k l)) <$> ((λ i, i * 1)%nat <$> seq 0 (length l))
  = (λ x, [x]) <$> l.
Proof.
  apply list_eq. intros j. rewrite !list_lookup_fmap.
  destruct (l !! j) as [x|] eqn:Hj.
  - rewrite (lookup_seq_lt 0 (length l) j) by by apply lookup_lt_Some in Hj.
    cbn. rewrite Nat.mul_1_r. by rewrite (drop_S l x j Hj).
  - apply lookup_ge_None in Hj. by rewrite lookup_seq_ge by done.
Qed.

(** X19. With at least as many workers as labels in the backlog, and no
    more than the 2^53 up to which the float quotient of line 137 has the
    ceiling of the exact one, every label is a chunk of its own, in the
    order of the backlog. *)
Theorem chunks_singletons (idx_list : list nat) (n_workers : Z) :
  idx_list ≠ [] → Z.of_nat (length idx_list) ≤ n_workers →
  float_exact n_workers →
  make_chunks idx_list (chunk_size (length idx_list) n_workers)
  = Ok ((λ x, [x]) <$> idx_list).
Proof.
  intros Hne Hw Hex.
  assert (0 < length idx_list)%nat as Hl by (destruct idx_list; [done|cbn; lia]).
  assert (n_workers ≤ 2 ^ 53) as Hb by (unfold float_exact in Hex; lia).
  assert (chunk_size (length idx_list) n_workers = 1%nat) as ->.
  { pose proof (chunk_size_ceil (length idx_list) n_workers Hl Hb) as [H1 H2].
    replace (Z.max 1 n_workers) with n_workers in * by lia. nia. }
  rewrite make_chunks_eq by lia.
  replace (length idx_list + 1 - 1)%nat with (length idx_list) by lia.
  rewrite Nat.div_1_r. by rewrite singleton_slices.
Qed.

Lemma chunks_singletons_witness :
  make_chunks [1; 2]%nat (chunk_size (length [1; 2]%nat) 10)
  = Ok ((λ x, [x]) <$> [1; 2]%nat).
Proof. apply chunks_singletons; [done | cbn; lia | by vm_compute]. Defined.

(** * Today's column *)

(** X20. After the check of lines 121 and 122 today's column exists.  A
    frame that already has it is left exactly as it is, so the step is
    idempotent and values stored earlier the same day are kept; otherwise
    the old columns keep their places, every row gets one more cell, NaN,
    and a frame with one cell per column stays so. *)
Theorem ensure_today_spec (today_str : string) (d : dataframe) :
  today_str ∈ columns (ensure_today today_str d)
  ∧ ensure_today today_str (ensure_today today_str d) = ensure_today today_str d
  ∧ (today_str ∈ columns d → ensure_today today_str d = d)
  ∧ columns d `prefix_of` columns (ensure_today today_str d)
  ∧ (rectangular d → rectangular (ensure_today today_str d))
  ∧ (today_str ∉ columns d →
     columns (ensure_today today_str d) = columns d ++ [today_str]
     ∧ ∀ i r, cells (ensure_today today_str d) !! i = Some r →
         ∃ r0, cells d !! i = Some r0 ∧ r = r0 ++ [PNaN]).
Proof.
  assert (today_str ∈ columns (ensure_today today_str d)) as Hin.
  { unfold ensure_today. case_bool_decide; [done|]. cbn.
    apply elem_of_app. right. by left. }
  split_and!.
  - done.
  - unfold ensure_today at 1. by rewrite bool_decide_eq_true_2.
  - intros H. unfold ensure_today. by rewrite bool_decide_eq_true_2.
  - unfold ensure_today. case_bool_decide; [done|]. cbn. by apply prefix_app_r.
  - unfold ensure_today, rectangular. case_bool_decide; [done|]. cbn.
    intros Hrect. apply Forall_fmap. apply (Forall_impl _ _ _ Hrect).
    intros r Hr. cbn. rewrite !length_app, Hr. done.
  - intros Hno. unfold ensure_today. rewrite bool_decide_eq_false_2 by done.
    cbn. split; [done|]. intros i r Hl. rewrite list_lookup_fmap in Hl.
    destruct (cells d !! i) as [r0|]; [|done]. cbn in Hl. injection Hl as <-.
    by exists r0.
Qed.

Lemma ensure_today_spec_witness :
  ensure_today "11_04"
    {| columns := ["name"; "ath_id"; "age"; "11_04"]%string;
       cells := [[PStr "a"; PInt 10; PInt 34; PInt 34]] |}
  = {| columns := ["name"; "ath_id"; "age"; "11_04"]%string;
       cells := [[PStr "a"; PInt 10; PInt 34; PInt 34]] |}
  ∧ columns
      (ensure_today "11_04"
         {| columns := ["name"; "ath_id"; "age"; "11_03"]%string;
            cells := [[PStr "a"; PInt 10; PInt 34; PInt 34]] |})
    = ["name"; "ath_id"; "age"; "11_03"; "11_04"]%string.
Proof.
  split.
  - apply (proj1 (proj2 (proj2 (ensure_today_spec "11_04"
      {| columns := ["name"; "ath_id"; "age"; "11_04"]%string;
         cells := [[PStr "a"; PInt 10; PInt 34; PInt 34]] |})))).
    apply (bool_decide_unpack _). vm_compute. exact I.
  - apply (proj2 (proj2 (proj2 (proj2 (proj2 (ensure_today_spec "11_04"
      {| columns := ["name"; "ath_id"; "age"; "11_03"]%string;
         cells := [[PStr "a"; PInt 10; PInt 34; PInt 34]] |})))))).
    apply (bool_decide_unpack _). vm_compute. exact I.
Defined.

Lemma retry_budget_spent_witness :
  count_events is_get
    (get_age_with_retry (λ _, Source "Age: 2") ("ifsc"%string, 42) 3).2
  = 3%nat.
Proof.
  apply (proj2 (proj2 (retry_budget_spent (λ _, Source "Age: 2")
                         ("ifsc"%string, 42) 3))).
  reflexivity.
Defined.

Lemma extract_age_total_witness :
  ∃ z, extract_age "<p>Age: 0041</p>" = PInt z ∧ 0 ≤ z
       ∧ int_acc 0 "0041" = Some z.
Proof.
  apply (proj2 (extract_age_total "<p>Age: 0041</p>") "0041"%string).
  - reflexivity.
  - apply Nat.leb_le. vm_compute. reflexivity.
Defined.

(** * Rows are never added, moved or rewritten *)

Lemma row_key_alter (v : pyval) (i : nat) (f : frame) :
  row_key <$> alter (set_today v) i f = row_key <$> f.
Proof.
  revert i. induction f as [|r f IH]; intros i; [done|].
  destruct i as [|i]; cbn; [done|]. by rewrite IH.
Qed.

Lemma row_key_writes (rs : list (nat * pyval)) (f : frame) :
  row_key <$> writes f rs = row_key <$> f.
Proof.
  revert f. induction rs as [|p rs IH]; intros f; [done|].
  unfold writes. cbn [foldl]. fold (writes (write_one f p) rs).
  rewrite IH. unfold write_one. destruct (is_deleted p); [done|].
  apply row_key_alter.
Qed.

Lemma row_key_drop_index (ids : list nat) (k : nat) (f : frame) :
  row_key <$> drop_index ids k f `sublist_of` row_key <$> f.
Proof.
  revert k. induction f as [|r f IH]; intros k; cbn [drop_index]; [done|].
  destruct (bool_decide (k ∈ ids)); cbn.
  - by apply sublist_cons.
  - by apply sublist_skip.
Qed.

Lemma row_key_merge_purge (f : frame) (rs : list (nat * pyval)) :
  row_key <$> merge_purge f rs `sublist_of` row_key <$> f.
Proof.
  rewrite merge_purge_eq, <- (row_key_writes rs f). apply row_key_drop_index.
Qed.

Lemma chain_row_keys (E : env) (federation : string) (n_workers : Z)
    (reps : list report) (f final : frame) :
  chain E federation n_workers f reps final →
  (∀ rep, rep ∈ reps → row_key <$> r_saved rep `sublist_of` row_key <$> f)
  ∧ row_key <$> final `sublist_of` row_key <$> f.
Proof.
  revert f. induction reps as [|rep reps IH]; intros f Hch.
  - cbn in Hch. subst. split; [|done]. intros rep H. by apply elem_of_nil in H.
  - cbn in Hch. destruct Hch as (_ & _ & _ & _ & Hsv & Hch).
    assert (row_key <$> r_saved rep `sublist_of` row_key <$> f) as Hstep.
    { rewrite Hsv. apply row_key_merge_purge. }
    destruct (IH _ Hch) as [IH1 IH2]. split.
    + intros rep' Hin. apply elem_of_cons in Hin as [->|Hin]; [done|].
      by etrans; [apply IH1|].
    + by etrans.
Qed.

(** X21. Whatever a run does, the rows of every frame it saves, today's
    cell apart, are rows of the loaded frame in their original order: a run
    removes rows and fills in today's cells, it never adds, duplicates,
    reorders or rewrites anything else. *)
Theorem run_keeps_rows (E : env) (federation : string) (n_workers : Z)
    (f : frame) :
  (∀ rep, rep ∈ (run_scraping_cycle E federation n_workers f).1.1 →
     row_key <$> r_saved rep `sublist_of` row_key <$> f)
  ∧ row_key <$> (run_scraping_cycle E federation n_workers f).2
      `sublist_of` row_key <$> f.
Proof.
  unfold run_scraping_cycle.
  pose proof (run_cycles_chain E federation n_workers (py_range 1 6) f) as H.
  cbv zeta in H. destruct H as (Hch & _ & _). by apply chain_row_keys in Hch.
Qed.

(** * A site that gives nothing *)

Lemma chunk_loop_site_down (E : env) (c : Z) (federation : string)
    (ids : list nat) (series : list (option Z))
    (rs : list (nat * pyval)) (tr : list event) :
  site_down E →
  chunk_loop E c federation ids series = Ok (rs, tr) →
  Forall (λ p, p.2 = PNaN) rs.
Proof.
  intros Hdown. revert rs tr.
  induction ids as [|i ids IH]; intros rs tr; cbn [chunk_loop].
  - by intros [= <- <-].
  - destruct (series !! i) as [oa|]; [|done].
    destruct (chunk_loop E c federation ids series) as [[rs0 tr0]|] eqn:Hrest.
    2:{ by destruct oa as [a|]; [destruct (get_age_with_retry _ _ _)|]. }
    specialize (IH _ _ eq_refl). destruct oa as [a|].
    + pose proof (retry_loop_all_failed (page E c i) (federation, a)
                    (py_range 1 (3 + 1)) (λ a' _, Hdown c i a')) as Hnan.
      fold (get_age_with_retry (page E c i) (federation, a) 3) in Hnan.
      destruct (get_age_with_retry (page E c i) (federation, a) 3) as [age tr1].
      cbn in Hnan. subst age. intros [= <- <-]. by constructor.
    + intros [= <- <-]. by constructor.
Qed.

Lemma scrape_site_down (E : env) (federation : string) (n_workers : Z) (c : Z)
    (f : frame) (idx_list : list nat) (chunks : list (list nat))
    (rs : list (nat * pyval)) (tr : list event) :
  site_down E →
  scrape E federation n_workers c f idx_list = Ok (chunks, (rs, tr)) →
  Forall (λ p, p.2 = PNaN) rs.
Proof.
  intros Hdown. unfold scrape.
  destruct (make_chunks idx_list _) as [chs|]; [|done].
  destruct (dispatch E c federation n_workers chs (ath_id <$> f))
    as [[rs0 tr0]|] eqn:Hd; [|done].
  intros [= <- <- <-]. unfold dispatch in Hd.
  destruct (n_workers <=? 0); [done|].
  destruct (max_pool_workers <=? n_workers); [done|].
  apply (collect_ok _ (λ p, p.2 = PNaN) (λ _, True)) in Hd as [Hd _]; [done|].
  intros t rs' tr' Hin. unfold as_completed in Hin.
  rewrite merge_sort_Permutation in Hin.
  apply elem_of_lookup_imap in Hin as (j & ch & [= -> Hp] & _).
  symmetry in Hp. unfold _process_chunk_age in Hp.
  destruct (session_ok E c j); [|done].
  split; [by apply (chunk_loop_site_down _ _ _ _ _ _ _ Hdown Hp)|].
  by apply Forall_forall.
Qed.

(** Results that are all NaN, for rows of the backlog, leave the frame as
    it is. *)
Lemma merge_purge_all_nan (f : frame) (rs : list (nat * pyval)) :
  (∀ i, i ∈ rs.*1 → i ∈ backlog f) → Forall (λ p, p.2 = PNaN) rs →
  merge_purge f rs = f.
Proof.
  intros Hsub Hnan. rewrite merge_purge_eq, deleted_ids_nil, drop_index_nil.
  2:{ rewrite Forall_forall in Hnan. intros p Hp. by rewrite (Hnan p Hp). }
  induction rs as [|[i v] rs IH]; [done|].
  apply Forall_cons in Hnan as [Hv Hnan]. cbn in Hv. subst v.
  unfold writes. cbn [foldl]. fold (writes (write_one f (i, PNaN)) rs).
  assert (write_one f (i, PNaN) = f) as ->.
  { unfold write_one. cbn. apply list_eq. intros j.
    destruct (decide (i = j)) as [<-|Hne];
      [|by rewrite list_lookup_alter_ne].
    rewrite list_lookup_alter_eq.
    assert (i ∈ backlog f) as Hb by (apply Hsub; by left).
    apply elem_of_backlog in Hb as (r & -> & Hm). cbn. f_equal.
    apply mask_spec in Hm as [Ht _]. rewrite <- Ht. apply set_today_same. }
  apply IH; [|done]. intros j Hj. apply Hsub. by right.
Qed.

Lemma run_cycles_site_down (E : env) (federation : string) (n_workers : Z)
    (cycles : list Z) (f : frame) :
  site_down E → 0 < n_workers < max_pool_workers →
  (∀ c j, session_ok E c j = true) →
  backlog f ≠ [] →
  (run_cycles E federation n_workers cycles f).1.2 = BudgetSpent
  ∧ (run_cycles E federation n_workers cycles f).2 = f
  ∧ length (run_cycles E federation n_workers cycles f).1.1 = length cycles
  ∧ Forall (λ rep, r_saved rep = f ∧ Forall (λ p, p.2 = PNaN) (r_results rep))
      (run_cycles E federation n_workers cycles f).1.1.
Proof.
  intros Hdown Hw Hs Hne. induction cycles as [|c rest IH]; [done|].
  cbn [run_cycles]. destruct (backlog f) as [|i idx] eqn:Hb; [done|].
  rewrite <- Hb.
  destruct (scrape_total E federation n_workers c f) as [[chunks [rs tr]] Hsc];
    [by rewrite Hb|done|done|].
  rewrite Hsc.
  pose proof (scrape_site_down _ _ _ _ _ _ _ _ _ Hdown Hsc) as Hnan.
  assert (merge_purge f rs = f) as Hsame.
  { apply merge_purge_all_nan; [|done]. intros j Hj.
    by rewrite <- (scrape_labels _ _ _ _ _ _ _ _ _ Hsc). }
  rewrite Hsame.
  destruct (run_cycles E federation n_workers rest f) as [[reps s] final].
  cbn in IH |- *. destruct IH as (-> & -> & -> & Hall).
  split_and!; try done. by constructor.
Qed.

(** X22. When the site gives nothing (every try of every row fails), with
    at least one worker, fewer than the 2^31 - 1 at which the pool refuses
    its size, and browsers that start, a run on a frame with a backlog goes
    through all five cycles, gets NaN for every row each time, and ends
    with the frame exactly as it was loaded. *)
Theorem run_site_down (E : env) (federation : string) (n_workers : Z)
    (f : frame) :
  site_down E → 1 ≤ n_workers < max_pool_workers →
  (∀ c j, session_ok E c j = true) →
  backlog f ≠ [] →
  (run_scraping_cycle E federation n_workers f).1.2 = BudgetSpent
  ∧ (run_scraping_cycle E federation n_workers f).2 = f
  ∧ length (run_scraping_cycle E federation n_workers f).1.1 = 5%nat
  ∧ Forall (λ rep, r_saved rep = f ∧ Forall (λ p, p.2 = PNaN) (r_results rep))
      (run_scraping_cycle E federation n_workers f).1.1.
Proof.
  intros Hdown Hw Hs Hne. unfold run_scraping_cycle.
  by apply (run_cycles_site_down E federation n_workers (py_range 1 6) f);
    [|lia|..].
Qed.

Lemma run_site_down_witness :
  (run_scraping_cycle
     {| page := λ _ _ _, GetFails; session_ok := λ _ _, true;
        finish := λ _ j, j |}
     "ifsc" 10 scenario_frame).1.2 = BudgetSpent
  ∧ (run_scraping_cycle
       {| page := λ _ _ _, GetFails; session_ok := λ _ _, true;
          finish := λ _ j, j |}
       "ifsc" 10 scenario_frame).2 = scenario_frame
  ∧ length (run_scraping_cycle
       {| page := λ _ _ _, GetFails; session_ok := λ _ _, true;
          finish := λ _ j, j |}
       "ifsc" 10 scenario_frame).1.1 = 5%nat
  ∧ Forall (λ rep, r_saved rep = scenario_frame
                   ∧ Forall (λ p, p.2 = PNaN) (r_results rep))
      (run_scraping_cycle
         {| page := λ _ _ _, GetFails; session_ok := λ _ _, true;
            finish := λ _ j, j |}
         "ifsc" 10 scenario_frame).1.1.
Proof.
  apply (run_site_down
           {| page := λ _ _ _, GetFails; session_ok := λ _ _, true;
              finish := λ _ j, j |}
           "ifsc" 10 scenario_frame).
  - intros c ridx a. reflexivity.
  - by vm_compute.
  - done.
  - vm_compute. discriminate.
Defined.
